(** * co-tasks: the task registry and its series / pipe executors

    A shallow embedding of [src/index.js] (class [CoTasks]) and the
    properties its specification states about it.

    Layout
    - [Js]       : the fragment of JavaScript values the engine inspects
                   ([typeof], truthiness, [Array.isArray], string
                   conversion, [for ... of]);
    - [Obj]      : [this.tasks], an object used as a dictionary from task
                   names to handler arrays, with the key order of
                   [Object.keys];
    - [Section Engine] : [registerTask], [defineTasks], [run], [pipe] on
                   the own properties of [this.tasks];
    - [Plain]    : the same four with the members [this.tasks] inherits
                   from [Object.prototype];
    - the theorems, one block per property. *)

From Stdlib Require Import ZArith NArith Ascii String List Lia.
From stdpp Require Import base tactics option list strings sorting pretty.

Set Warnings "-register-all".
Local Open Scope string_scope.
Local Open Scope list_scope.

(** ** JavaScript values *)

Module Js.

(** Plain data only: handlers are kept apart (see [Section Engine]).
    [VNum n] is the integer-valued number [n]; [VNaN] is the one number
    the engine could tell apart from the others by truthiness besides
    zero.  [VIter shown items] is an iterable object that is neither an
    array nor a string (a [Set], a [Map], a typed array, a [String]
    object, a generator object): [items] is what its iterator yields and
    [shown] what [String] makes of it. *)
Inductive value : Type :=
| VUndefined
| VNull
| VBool (b : bool)
| VNum (n : Z)
| VNaN
| VStr (s : string)
| VArr (items : list value)
| VObj (fields : list (string * value))
| VIter (shown : string) (items : list value).

(** [typeof v] *)
Definition typeof (v : value) : string :=
  match v with
  | VUndefined => "undefined"
  | VNull => "object"
  | VBool _ => "boolean"
  | VNum _ | VNaN => "number"
  | VStr _ => "string"
  | VArr _ | VObj _ | VIter _ _ => "object"
  end.

(** [!!v] *)
Definition truthy (v : value) : bool :=
  match v with
  | VUndefined | VNull | VNaN => false
  | VBool b => b
  | VNum n => negb (n =? 0)%Z
  | VStr s => negb (String.eqb s "")
  | VArr _ | VObj _ | VIter _ _ => true
  end.

(** [Array.isArray(v)] *)
Definition isArray (v : value) : bool :=
  match v with VArr _ => true | _ => false end.

(** [v === undefined] *)
Definition is_undefined (v : value) : bool :=
  match v with VUndefined => true | _ => false end.

(** [String(v)], the conversion behind ['pre-' + task] and behind the
    property key of [this.tasks[task]].  Numbers print in decimal (as the
    runtime prints integers of up to twenty-one digits); objects are plain
    ones. *)
Fixpoint to_string (v : value) : string :=
  match v with
  | VUndefined => "undefined"
  | VNull => "null"
  | VBool true => "true"
  | VBool false => "false"
  | VNum n => pretty n
  | VNaN => "NaN"
  | VStr s => s
  | VArr items =>
      String.concat ","
        (List.map (fun x => match x with
                            | VUndefined | VNull => ""
                            | _ => to_string x
                            end) items)
  | VObj _ => "[object Object]"
  | VIter shown _ => shown
  end.

(** The sequence a [for (let x of v)] loop walks through, [None] when [v]
    is not iterable (the loop then raises a [TypeError]). *)
Definition iterate (v : value) : option (list value) :=
  match v with
  | VArr items => Some items
  | VStr s => Some (List.map (fun c => VStr (String c "")) (list_ascii_of_string s))
  | VIter _ items => Some items
  | VUndefined | VNull | VBool _ | VNum _ | VNaN | VObj _ => None
  end.

End Js.
Export Js.

(** ** Errors *)

(** The failures a call can end in.  The first four are the [new Error]
    sites of [src/index.js]; [NotIterable] is the [TypeError] the runtime
    raises when a [for ... of] loop is given [null]; the last two come out
    of a handler invocation. *)
Inductive error : Type :=
| UnknownTask (task : string)
| TaskNotAllowed (name : string) (known : list string)
| NoTasksSpecified
| InvalidPipeValue
| NotIterable
| Timeout
| HandlerFailure (reason : value).

(** The text passed to [new Error] at each site. *)
Definition message (e : error) : option string :=
  match e with
  | UnknownTask task => Some ("Task name " +:+ task +:+ " not defined!")
  | TaskNotAllowed name known =>
      Some ("Task name " +:+ name +:+ " not defined!" +:+ String "010" "Allowed tasks are: "
              +:+ String.concat ", " known)
  | NoTasksSpecified => Some "Set allowedTasks option or use tasks argument!"
  | InvalidPipeValue => Some "Pipe error. Returned data aren't a valid pipe data object"
  | NotIterable | Timeout | HandlerFailure _ => None
  end.

(** ** Objects used as dictionaries *)

Module Obj.
Section Dict.
Context {V : Type}.

(** Own properties in creation order.  The members inherited from
    [Object.prototype] are added by [Plain.read] and [Plain.has]
    below. *)
Definition t : Type := list (string * V).

Definition empty : t := [].

(** [o[k]] for an own property [k] *)
Fixpoint get (k : string) (o : t) : option V :=
  match o with
  | [] => None
  | (k', v) :: o' => if String.eqb k k' then Some v else get k o'
  end.

(** [k in o] among the own properties *)
Definition has (k : string) (o : t) : bool :=
  match get k o with Some _ => true | None => false end.

(** [o[k] = v]: an existing property keeps its place, a new one goes
    last. *)
Fixpoint set (k : string) (v : V) (o : t) : t :=
  match o with
  | [] => [(k, v)]
  | (k', v') :: o' =>
      if String.eqb k k' then (k', v) :: o' else (k', v') :: set k v o'
  end.

Definition digit (a : ascii) : option N :=
  let n := N_of_ascii a in
  if ((48 <=? n) && (n <=? 57))%N then Some (n - 48)%N else None.

Fixpoint decimal (s : string) (acc : N) : option N :=
  match s with
  | EmptyString => Some acc
  | String a s' =>
      match digit a with
      | Some d => decimal s' (10 * acc + d)%N
      | None => None
      end
  end.

(** A key is an array index when it is the canonical decimal form of an
    integer below [2^32 - 1]. *)
Definition array_index (k : string) : option N :=
  match k with
  | EmptyString => None
  | String "0" EmptyString => Some 0%N
  | String "0" _ => None
  | _ =>
      match decimal k 0 with
      | Some n => if (n <? 4294967295)%N then Some n else None
      | None => None
      end
  end.

Definition indexed (k : string) : option (N * string) :=
  match array_index k with Some n => Some (n, k) | None => None end.

Definition is_index (k : string) : bool :=
  match array_index k with Some _ => true | None => false end.

Definition index_le (a b : N * string) : Prop := (fst a <= fst b)%N.

#[local] Instance index_le_dec a b : Decision (index_le a b).
Proof. unfold index_le. apply _. Defined.

(** [Object.keys(o)]: array indices in ascending order, then the other
    keys in creation order. *)
Definition keys (o : t) : list string :=
  let ks := List.map fst o in
  List.map snd (merge_sort index_le (omap indexed ks))
    ++ List.filter (fun k => negb (is_index k)) ks.

End Dict.
Arguments t : clear implicits.
End Obj.

(** ** Outcomes *)

(** How a call that returns a promise can end. *)
Inductive outcome (A : Type) : Type :=
| Resolved (a : A)      (* the promise is fulfilled with [a] *)
| Rejected (e : error)  (* the promise is rejected with [e] *)
| Pending               (* the promise never settles *)
| Thrown (e : error).   (* [e] is thrown before any promise is returned *)
Arguments Resolved {A} a.
Arguments Rejected {A} e.
Arguments Pending {A}.
Arguments Thrown {A} e.

(** How a synchronous method can end. *)
Inductive result (A : Type) : Type :=
| Ok (a : A)
| Throw (e : error).
Arguments Ok {A} a.
Arguments Throw {A} e.

Definition and_then {A B : Type} (r : result A) (k : A -> result B) : result B :=
  match r with Ok a => k a | Throw e => Throw e end.

(** How one guarded handler invocation can end. *)
Inductive reply : Type :=
| Returned (v : value)
| Failed (reason : value)
| TimedOut
| Unsettled.

(** One entry of the report of [run]: [{task: ..., results: ...}]. *)
Record entry : Type := { task : string; results : list value }.

(** The instance state: [this.tasks] and [this.allowedTasks] ([None] is
    [null]).  The [debug] flag only switches logging on and is left out. *)
Module CoTasks.
Record t (handler : Type) : Type :=
  { tasks : Obj.t (list handler); allowedTasks : option (list string) }.
Arguments tasks {handler} _.
Arguments allowedTasks {handler} _.
End CoTasks.

(** ** The engine *)

Section Engine.
Context {handler world : Type}.

(** A guarded invocation of one handler with [(ctx, arg, timeout)].  The
    handler may act on the world it runs in; the timer race is the
    business of the [co-utils] package and is taken as given.  The
    registry is not part of the world: registrations are made before a
    call, the engine has no guard against a handler that registers tasks
    while it runs. *)
Variable invoke : handler -> value -> value -> value -> world -> reply * world.

(** Computations that act on the world and settle, or do not. *)
Definition M (A : Type) : Type := world -> outcome A * world.

Definition ret {A : Type} (a : A) : M A := fun w => (Resolved a, w).

Definition throw {A : Type} (e : error) : M A := fun w => (Rejected e, w).

Definition bind {A B : Type} (m : M A) (k : A -> M B) : M B :=
  fun w =>
    match m w with
    | (Resolved a, w') => k a w'
    | (Rejected e, w') => (Rejected e, w')
    | (Pending, w') => (Pending, w')
    | (Thrown e, w') => (Thrown e, w')
    end.

Local Notation "x <- m ;; k" := (bind m (fun x => k))
  (at level 100, m at next level, right associativity).

(** [yield] on one guarded invocation. *)
Definition call (fn : handler) (ctx arg timeout : value) : M value :=
  fun w =>
    match invoke fn ctx arg timeout w with
    | (Returned v, w') => (Resolved v, w')
    | (Failed reason, w') => (Rejected (HandlerFailure reason), w')
    | (TimedOut, w') => (Rejected Timeout, w')
    | (Unsettled, w') => (Pending, w')
    end.

(** Modelled from the spec: [co.series] of the [co-utils] package, which
    is not part of the sources.  The handlers are invoked one after the
    other in list order, each with the same [(ctx, args)]; their results
    are collected into an array; the first failure ends the call. *)
Fixpoint co_series (arr : list handler) (ctx args timeout : value) : M (list value) :=
  match arr with
  | [] => ret []
  | fn :: arr' =>
      r <- call fn ctx args timeout ;;
      rs <- co_series arr' ctx args timeout ;;
      ret (r :: rs)
  end.

(** Modelled from the spec: [co.pipe] of the [co-utils] package, which is
    not part of the sources.  The handlers are chained in list order:
    each receives [(ctx, pipeArg)] and its result is the next
    [pipeArg]. *)
Fixpoint co_pipe (arr : list handler) (ctx pipeArg timeout : value) : M value :=
  match arr with
  | [] => ret pipeArg
  | fn :: arr' =>
      pipeArg' <- call fn ctx pipeArg timeout ;;
      co_pipe arr' ctx pipeArg' timeout
  end.

(** [for (let x of items) { acc = body(x, acc) }] *)
Fixpoint for_of {A : Type} (items : list value) (body : value -> A -> M A) (acc : A) : M A :=
  match items with
  | [] => ret acc
  | x :: items' => acc' <- body x acc ;; for_of items' body acc'
  end.

(** [this.allowedTasks] as the value the loops receive. *)
Definition allowed_value (allowed : option (list string)) : value :=
  match allowed with
  | None => VNull
  | Some names => VArr (List.map VStr names)
  end.

(** *** CoTasks constructor (without [conf.tasksDir]) *)
Definition create : CoTasks.t handler :=
  {| CoTasks.tasks := Obj.empty; CoTasks.allowedTasks := None |}.

(** *** run *)

(** One of the three blocks of the loop body of [run]:
    [if (this.tasks[name] && this.tasks[name].length) { ... res.push(...) }] *)
Definition run_phase (self : CoTasks.t handler) (name : string)
    (ctx args timeout : value) (res : list entry) : M (list entry) :=
  match Obj.get name (CoTasks.tasks self) with
  | Some arr =>
      if negb (Nat.eqb (length arr) 0) then
        result <- co_series arr ctx args timeout ;;
        ret (res ++ [{| task := name; results := result |}])
      else ret res
  | None => ret res
  end.

(** The loop body of [run]. *)
Definition run_task (self : CoTasks.t handler) (ctx args timeout : value)
    (task : value) (res : list entry) : M (list entry) :=
  let name := to_string task in
  match Obj.get name (CoTasks.tasks self) with
  | None => throw (UnknownTask name)
  | Some _ =>
      res <- run_phase self ("pre-" +:+ name) ctx args timeout res ;;
      res <- run_phase self name ctx args timeout res ;;
      run_phase self ("post-" +:+ name) ctx args timeout res
  end.

Definition run (self : CoTasks.t handler) (tasks ctx args timeout : value) : M (list entry) :=
  let tasks :=
    if negb (truthy tasks) then allowed_value (CoTasks.allowedTasks self)
    else if String.eqb (typeof tasks) "string" then VArr [tasks]
    else tasks in
  match iterate tasks with
  | None => throw NotIterable
  | Some items => for_of items (run_task self ctx args timeout) []
  end.

(** *** pipe *)

(** One of the three blocks of the loop body of [pipe]. *)
Definition pipe_phase (self : CoTasks.t handler) (name : string)
    (ctx timeout : value) (pipeArg : value) : M value :=
  match Obj.get name (CoTasks.tasks self) with
  | Some arr =>
      if negb (Nat.eqb (length arr) 0) then
        pipeArg <- co_pipe arr ctx pipeArg timeout ;;
        if negb (truthy pipeArg) then throw InvalidPipeValue else ret pipeArg
      else ret pipeArg
  | None => ret pipeArg
  end.

(** The loop body of [pipe]. *)
Definition pipe_task (self : CoTasks.t handler) (ctx timeout : value)
    (task : value) (pipeArg : value) : M value :=
  let name := to_string task in
  match Obj.get name (CoTasks.tasks self) with
  | None => throw (UnknownTask name)
  | Some _ =>
      pipeArg <- pipe_phase self ("pre-" +:+ name) ctx timeout pipeArg ;;
      pipeArg <- pipe_phase self name ctx timeout pipeArg ;;
      pipe_phase self ("post-" +:+ name) ctx timeout pipeArg
  end.

(** The argument shuffle at the head of [pipe]: the bindings of
    [(tasks, ctx, pipeArg, timeout)] the body runs with. *)
Definition pipe_args (self : CoTasks.t handler) (tasks ctx pipeArg timeout : value)
    : value * value * value * value :=
  let tasks := if String.eqb (typeof tasks) "string" then VArr [tasks] else tasks in
  let '(tasks, ctx, pipeArg, timeout) :=
    if negb (truthy tasks) || negb (isArray tasks)
    then (allowed_value (CoTasks.allowedTasks self), tasks, ctx, pipeArg)
    else (tasks, ctx, pipeArg, timeout) in
  let '(ctx, pipeArg) :=
    if String.eqb (typeof pipeArg) "number" || is_undefined pipeArg
    then (VNull, ctx)
    else (ctx, pipeArg) in
  (tasks, ctx, pipeArg, timeout).

Definition pipe (self : CoTasks.t handler) (tasks ctx pipeArg timeout : value) : M value :=
  let '(tasks, ctx, pipeArg, timeout) := pipe_args self tasks ctx pipeArg timeout in
  if negb (truthy tasks) then fun w => (Thrown NoTasksSpecified, w)
  else
    match iterate tasks with
    | None => throw NotIterable
    | Some items => for_of items (pipe_task self ctx timeout) pipeArg
    end.

(** *** registerTask *)

(** [this.tasks[name].push(fn)] *)
Definition push (name : string) (fn : handler) (o : Obj.t (list handler))
    : Obj.t (list handler) :=
  match Obj.get name o with
  | Some arr => Obj.set name (arr ++ [fn]) o
  | None => o
  end.

Definition registerTask (name : string) (fn : handler) (self : CoTasks.t handler)
    : result (CoTasks.t handler) :=
  and_then
    (match Obj.get name (CoTasks.tasks self) with
     | None =>
         match CoTasks.allowedTasks self with
         | Some _ => Throw (TaskNotAllowed name (Obj.keys (CoTasks.tasks self)))
         | None => Ok (Obj.set name [] (CoTasks.tasks self))
         end
     | Some _ => Ok (CoTasks.tasks self)
     end)
    (fun tasks =>
       Ok {| CoTasks.tasks := push name fn tasks;
             CoTasks.allowedTasks := CoTasks.allowedTasks self |}).

(** *** defineTasks *)

(** The loop body of [defineTasks], on the pair
    [(this.tasks, this.allowedTasks)]. *)
Definition define_task (regPreTasks regPostTasks : value)
    (st : Obj.t (list handler) * list string) (task : string)
    : Obj.t (list handler) * list string :=
  let '(tasks, allowed) := st in
  let tasks := if truthy regPreTasks then Obj.set ("pre-" +:+ task) [] tasks else tasks in
  let tasks := if Obj.has task tasks then tasks else Obj.set task [] tasks in
  let allowed := allowed ++ [task] in
  let tasks := if truthy regPostTasks then Obj.set ("post-" +:+ task) [] tasks else tasks in
  (tasks, allowed).

Definition defineTasks (tasks : list string) (regPreTasks regPostTasks : value)
    (self : CoTasks.t handler) : CoTasks.t handler :=
  let '(tasks', allowed) :=
    fold_left (define_task regPreTasks regPostTasks) tasks (CoTasks.tasks self, []) in
  {| CoTasks.tasks := tasks'; CoTasks.allowedTasks := Some allowed |}.

(** A setup script: the registrations [regs], one after the other. *)
Fixpoint register_all (regs : list (string * handler)) (self : CoTasks.t handler)
    : result (CoTasks.t handler) :=
  match regs with
  | [] => Ok self
  | (name, fn) :: regs' => and_then (registerTask name fn self) (register_all regs')
  end.

(** *** The words of the specification *)

(** [isKnown(name)]: [name] has a handler list, possibly an empty one. *)
Definition known (self : CoTasks.t handler) (name : string) : Prop :=
  Obj.get name (CoTasks.tasks self) <> None.

(** [handlersFor(name)]: the handler list of [name], empty when there is
    none. *)
Definition handlers_for (self : CoTasks.t handler) (name : string) : list handler :=
  match Obj.get name (CoTasks.tasks self) with
  | Some arr => arr
  | None => []
  end.

(** The phases of a task, in the order pre, main, post. *)
Definition phases_of (name : string) : list string :=
  ["pre-" +:+ name; name; "post-" +:+ name].

(** The handlers a request for [names] is due to invoke, first to last:
    task by task, phase by phase, and within a phase in registration
    order. *)
Definition schedule (self : CoTasks.t handler) (names : list string) : list handler :=
  flat_map (fun name => flat_map (handlers_for self) (phases_of name)) names.



(** All handler results of a report, in report order. *)
Definition all_results (report : list entry) : list value :=
  concat (List.map results report).

(** The phases [ps] of [pipe], one after the other. *)
Fixpoint pipe_phases (self : CoTasks.t handler) (ctx timeout : value)
    (ps : list string) (pipeArg : value) : M value :=
  match ps with
  | [] => ret pipeArg
  | p :: ps' =>
      pipeArg' <- pipe_phase self p ctx timeout pipeArg ;;
      pipe_phases self ctx timeout ps' pipeArg'
  end.

End Engine.

Definition map_outcome {A B : Type} (f : A -> B) (o : outcome A) : outcome B :=
  match o with
  | Resolved a => Resolved (f a)
  | Rejected e => Rejected e
  | Pending => Pending
  | Thrown e => Thrown e
  end.

(** The failures that come out of a handler invocation. *)
Definition handler_error (e : error) : Prop :=
  match e with
  | Timeout | HandlerFailure _ => True
  | _ => False
  end.

(** The outcomes a chain of handler invocations can have on its own. *)
Definition handler_outcome {A : Type} (o : outcome A) : Prop :=
  match o with
  | Resolved _ | Pending => True
  | Rejected e => handler_error e
  | Thrown _ => False
  end.

(** A settled [run], reduced to the handler results it reports. *)
Definition flatten_run {world : Type} (x : outcome (list entry) * world)
    : outcome (list value) * world :=
  (map_outcome all_results (fst x), snd x).

Section Following.
Context {handler world : Type}.
Variable invoke : handler -> value -> value -> value -> world -> reply * world.

(** [x] is what becomes of the chain [hs] started on [(v, w)] when a
    check for a falsy pipe value may cut it short: either it is the
    outcome of the whole chain, or the chain was stopped with
    [InvalidPipeValue] after a front part [front] of [hs] that had
    produced a falsy value. *)
Definition pipe_follows (hs : list handler) (ctx timeout v : value) (w : world)
    (x : outcome value * world) : Prop :=
  co_pipe invoke hs ctx v timeout w = x
  \/ (fst x = Rejected InvalidPipeValue
      /\ exists front rest v',
           hs = front ++ rest
           /\ co_pipe invoke front ctx v timeout w = (Resolved v', snd x)
           /\ truthy v' = false).
End Following.



Section Chains.
Context {handler world : Type}.
Variable invoke : handler -> value -> value -> value -> world -> reply * world.

(** No phase of [ps] that has handlers ends its chain on a falsy value,
    when the phases are chained one after the other from [(v, w)]. *)
Fixpoint ends_truthy (self : CoTasks.t handler) (ctx timeout : value)
    (ps : list string) (v : value) (w : world) : Prop :=
  match ps with
  | [] => True
  | p :: ps' =>
      match co_pipe invoke (handlers_for self p) ctx v timeout w with
      | (Resolved v', w') =>
          (handlers_for self p = [] \/ truthy v' = true)
          /\ ends_truthy self ctx timeout ps' v' w'
      | _ => True
      end
  end.
End Chains.

(** ** [this.tasks] as the plain object it is *)

(** [this.tasks] is created as [{}]: besides its own properties it answers
    for the members of [Object.prototype].  The engine above looks at own
    properties only; the one below also sees the inherited members.  The
    two agree on every name that is not such a member. *)
Module Plain.

(** What [Object.prototype] holds under a name. *)
Inductive member : Type :=
| Method (length : nat)   (* a function, with its [length] *)
| Accessor.               (* [__proto__], which reads as [Object.prototype] *)

Definition member_of (k : string) : option member :=
  if String.eqb k "constructor" then Some (Method 1)
  else if String.eqb k "hasOwnProperty" then Some (Method 1)
  else if String.eqb k "isPrototypeOf" then Some (Method 1)
  else if String.eqb k "propertyIsEnumerable" then Some (Method 1)
  else if String.eqb k "toString" then Some (Method 0)
  else if String.eqb k "toLocaleString" then Some (Method 0)
  else if String.eqb k "valueOf" then Some (Method 0)
  else if String.eqb k "__defineGetter__" then Some (Method 2)
  else if String.eqb k "__defineSetter__" then Some (Method 2)
  else if String.eqb k "__lookupGetter__" then Some (Method 1)
  else if String.eqb k "__lookupSetter__" then Some (Method 1)
  else if String.eqb k "__proto__" then Some Accessor
  else None.

(** A name that [Object.prototype] has nothing under. *)
Definition ordinary (k : string) : Prop := member_of k = None.

(** What [o[k]] evaluates to. *)
Inductive slot (V : Type) : Type :=
| Own (v : V)
| Inherited (m : member)
| Undefined.
Arguments Own {V} v.
Arguments Inherited {V} m.
Arguments Undefined {V}.

(** How a synchronous method can end, the [TypeError] of a call to
    something that is not a function included. *)
Inductive completion (A : Type) : Type :=
| Returns (a : A)
| Throws (e : error)
| TypeError.
Arguments Returns {A} a.
Arguments Throws {A} e.
Arguments TypeError {A}.

Section Lookup.
Context {V : Type}.

(** [o[k]]: an own property hides the inherited member. *)
Definition read (k : string) (o : Obj.t V) : slot V :=
  match Obj.get k o with
  | Some v => Own v
  | None =>
      match member_of k with
      | Some m => Inherited m
      | None => Undefined
      end
  end.

(** [k in o] *)
Definition has (k : string) (o : Obj.t V) : bool :=
  match read k o with
  | Undefined => false
  | _ => true
  end.

End Lookup.

Section Engine.
Context {handler world : Type}.
Variable invoke : handler -> value -> value -> value -> world -> reply * world.

(** [co.series] and [co.pipe] of the [co-utils] package handed the
    inherited function under a name instead of an array of handlers: what
    they then do is their business and is taken as given. *)
Variable series_member : string -> value -> value -> value -> @M world (list value).
Variable pipe_member : string -> value -> value -> value -> @M world value.

Local Notation "x <- m ;; k" := (bind m (fun x => k))
  (at level 100, m at next level, right associativity).

(** *** registerTask *)

(** An inherited member is truthy, so that neither the allow-list is
    consulted nor a list created; it has no [push]. *)
Definition registerTask (name : string) (fn : handler) (self : CoTasks.t handler)
    : completion (CoTasks.t handler) :=
  match read name (CoTasks.tasks self) with
  | Undefined =>
      match CoTasks.allowedTasks self with
      | Some _ => Throws (TaskNotAllowed name (Obj.keys (CoTasks.tasks self)))
      | None =>
          Returns {| CoTasks.tasks := push name fn (Obj.set name [] (CoTasks.tasks self));
                     CoTasks.allowedTasks := CoTasks.allowedTasks self |}
      end
  | Own _ =>
      Returns {| CoTasks.tasks := push name fn (CoTasks.tasks self);
                 CoTasks.allowedTasks := CoTasks.allowedTasks self |}
  | Inherited _ => TypeError
  end.

(** *** defineTasks *)

Definition define_task (regPreTasks regPostTasks : value)
    (st : Obj.t (list handler) * list string) (task : string)
    : Obj.t (list handler) * list string :=
  let '(tasks, allowed) := st in
  let tasks := if truthy regPreTasks then Obj.set ("pre-" +:+ task) [] tasks else tasks in
  let tasks := if has task tasks then tasks else Obj.set task [] tasks in
  let allowed := allowed ++ [task] in
  let tasks := if truthy regPostTasks then Obj.set ("post-" +:+ task) [] tasks else tasks in
  (tasks, allowed).

Definition defineTasks (tasks : list string) (regPreTasks regPostTasks : value)
    (self : CoTasks.t handler) : CoTasks.t handler :=
  let '(tasks', allowed) :=
    fold_left (define_task regPreTasks regPostTasks) tasks (CoTasks.tasks self, []) in
  {| CoTasks.tasks := tasks'; CoTasks.allowedTasks := Some allowed |}.

(** *** run *)

(** [if (this.tasks[name] && this.tasks[name].length) { ... }]: a function
    has a [length], [Object.prototype] has none. *)
Definition run_phase (self : CoTasks.t handler) (name : string)
    (ctx args timeout : value) (res : list entry) : M (list entry) :=
  match read name (CoTasks.tasks self) with
  | Own arr =>
      if negb (Nat.eqb (length arr) 0) then
        result <- co_series invoke arr ctx args timeout ;;
        ret (res ++ [{| task := name; results := result |}])
      else ret res
  | Inherited (Method n) =>
      if negb (Nat.eqb n 0) then
        result <- series_member name ctx args timeout ;;
        ret (res ++ [{| task := name; results := result |}])
      else ret res
  | Inherited Accessor => ret res
  | Undefined => ret res
  end.

Definition run_task (self : CoTasks.t handler) (ctx args timeout : value)
    (task : value) (res : list entry) : M (list entry) :=
  let name := to_string task in
  match read name (CoTasks.tasks self) with
  | Undefined => throw (UnknownTask name)
  | _ =>
      res <- run_phase self ("pre-" +:+ name) ctx args timeout res ;;
      res <- run_phase self name ctx args timeout res ;;
      run_phase self ("post-" +:+ name) ctx args timeout res
  end.

Definition run (self : CoTasks.t handler) (tasks ctx args timeout : value) : M (list entry) :=
  let tasks :=
    if negb (truthy tasks) then allowed_value (CoTasks.allowedTasks self)
    else if String.eqb (typeof tasks) "string" then VArr [tasks]
    else tasks in
  match iterate tasks with
  | None => throw NotIterable
  | Some items => for_of items (run_task self ctx args timeout) []
  end.

(** *** pipe *)

Definition pipe_phase (self : CoTasks.t handler) (name : string)
    (ctx timeout : value) (pipeArg : value) : M value :=
  let check (m : M value) : M value :=
    pipeArg <- m ;;
    if negb (truthy pipeArg) then throw InvalidPipeValue else ret pipeArg in
  match read name (CoTasks.tasks self) with
  | Own arr =>
      if negb (Nat.eqb (length arr) 0) then check (co_pipe invoke arr ctx pipeArg timeout)
      else ret pipeArg
  | Inherited (Method n) =>
      if negb (Nat.eqb n 0) then check (pipe_member name ctx pipeArg timeout)
      else ret pipeArg
  | Inherited Accessor => ret pipeArg
  | Undefined => ret pipeArg
  end.

Definition pipe_task (self : CoTasks.t handler) (ctx timeout : value)
    (task : value) (pipeArg : value) : M value :=
  let name := to_string task in
  match read name (CoTasks.tasks self) with
  | Undefined => throw (UnknownTask name)
  | _ =>
      pipeArg <- pipe_phase self ("pre-" +:+ name) ctx timeout pipeArg ;;
      pipeArg <- pipe_phase self name ctx timeout pipeArg ;;
      pipe_phase self ("post-" +:+ name) ctx timeout pipeArg
  end.

Definition pipe (self : CoTasks.t handler) (tasks ctx pipeArg timeout : value) : M value :=
  let '(tasks, ctx, pipeArg, timeout) := pipe_args self tasks ctx pipeArg timeout in
  if negb (truthy tasks) then fun w => (Thrown NoTasksSpecified, w)
  else
    match iterate tasks with
    | None => throw NotIterable
    | Some items => for_of items (pipe_task self ctx timeout) pipeArg
    end.

End Engine.
End Plain.

(** ** Setting an instance up *)

(** What a loaded module can throw. *)
Inductive thrown : Type :=
| Raised (e : error)          (* an error of the engine, e.g. from [registerTask] *)
| Foreign (reason : value).   (* anything else *)

(** The [conf] object of the constructor. *)
Record conf : Type := { tasksDir : option string; debug : bool }.

Section Setup.
Context {handler : Type}.

(** The handler list under [k] in [this.tasks], empty when there is
    none. *)
Definition list_at (tasks : Obj.t (list handler)) (k : string) : list handler :=
  match Obj.get k tasks with
  | Some arr => arr
  | None => []
  end.

(** [k] is a phase name that [defineTasks(names, regPre, regPost)]
    assigns an empty list to. *)
Definition reset_by (names : list string) (regPre regPost : value) (k : string) : Prop :=
  exists n, In n names
            /\ ((truthy regPre = true /\ k = "pre-" +:+ n)
                \/ (truthy regPost = true /\ k = "post-" +:+ n)).

(** Every name of the allow-list, when there is one, has a handler
    list. *)
Definition allowed_known (self : CoTasks.t handler) : Prop :=
  forall allowed, CoTasks.allowedTasks self = Some allowed -> Forall (known self) allowed.

(** The handlers a list of registrations puts under [name], in order. *)
Definition registered (name : string) (regs : list (string * handler)) : list handler :=
  List.map snd (List.filter (fun r => String.eqb (fst r) name) regs).

(** The instances built from a new one by [registerTask] and
    [defineTasks] calls whose names are ordinary ones. *)
Inductive built : CoTasks.t handler -> Prop :=
| built_create : built create
| built_register name fn self self' :
    built self -> Plain.ordinary name -> registerTask name fn self = Ok self' -> built self'
| built_define names regPre regPost self :
    built self -> Forall Plain.ordinary names -> built (defineTasks names regPre regPost self).

(** A module of the tasks directory, called as [mod(self, log)]: the
    instance as the call leaves it, and what the call threw, if it
    threw. *)
Definition module : Type := CoTasks.t handler -> CoTasks.t handler * option thrown.

(** The module whose body is the calls [self.registerTask(name, fn)] for
    the pairs of [regs], in order.  A call that throws throws before it
    changes anything. *)
Fixpoint script (regs : list (string * handler)) : module :=
  fun self =>
    match regs with
    | [] => (self, None)
    | (name, fn) :: regs' =>
        match registerTask name fn self with
        | Ok self' => script regs' self'
        | Throw e => (self, Some (Raised e))
        end
    end.

Section Loader.

(** [glob.sync('**/*.js', {cwd: dir})] and [require(path.join(dir, file))]
    belong to the runtime and are taken as given; a [require] that fails
    is a module that throws and leaves the instance alone. *)
Variable glob_sync : string -> list string.
Variable require : string -> string -> module.

(** The loop of [registerTasksDir]. *)
Fixpoint load_files (dir : string) (files : list string) (self : CoTasks.t handler)
    : CoTasks.t handler * option thrown :=
  match files with
  | [] => (self, None)
  | file :: files' =>
      match require dir file self with
      | (self', None) => load_files dir files' self'
      | (self', Some e) => (self', Some e)
      end
  end.

Definition registerTasksDir (dir : string) (self : CoTasks.t handler)
    : CoTasks.t handler * option thrown :=
  load_files dir (glob_sync dir) self.

(** [new CoTasks(conf)]; the [debug] entry only sets the log level.  When
    something is thrown no instance is returned; the first component is
    then the instance as it was left. *)
Definition construct (c : option conf) : CoTasks.t handler * option thrown :=
  match c with
  | Some {| tasksDir := Some dir |} =>
      if negb (String.eqb dir "") then registerTasksDir dir create else (create, None)
  | _ => (create, None)
  end.

End Loader.
End Setup.

(** ** A concrete instance, to run the engine on *)

Module Demo.

(** A handler with an identity and a pure behaviour on [(ctx, arg)]. *)
Record handler : Type := { id : nat; behaviour : value -> value -> reply }.

(** The world is the log of the handlers invoked so far. *)
Definition world : Type := list nat.

Definition invoke (fn : handler) (ctx arg timeout : value) (w : world) : reply * world :=
  (behaviour fn ctx arg, w ++ [id fn]).

(** Returns a fixed value. *)
Definition const (i : nat) (v : value) : handler :=
  {| id := i; behaviour := fun _ _ => Returned v |}.

(** [{value: n}] becomes [{value: n + 1}]. *)
Definition incr (i : nat) : handler :=
  {| id := i;
     behaviour := fun _ arg =>
       match arg with
       | VObj [("value", VNum n)] => Returned (VObj [("value", VNum (n + 1))])
       | _ => Failed (VStr "bad input")
       end |}.

(** Returns the pair [[ctx, arg]] of what it was given. *)
Definition observe (i : nat) : handler :=
  {| id := i; behaviour := fun ctx arg => Returned (VArr [ctx; arg]) |}.

(** [{value: n}] *)
Definition payload (n : Z) : value := VObj [("value", VNum n)].

(** The tasks [a] and [b] of an allow-list with pre and post phases:
    [pre-a] has one handler, [a] two, [b] one, [post-b] one, the other
    phases none. *)
Definition pipeline : CoTasks.t handler :=
  {| CoTasks.tasks :=
       [("pre-a", [incr 1]); ("a", [incr 2; incr 3]); ("post-a", []);
        ("pre-b", []); ("b", [incr 4]); ("post-b", [incr 5])];
     CoTasks.allowedTasks := Some ["a"; "b"] |}.

(** No allow-list; the second handler of [a] returns [null]. *)
Definition broken : CoTasks.t handler :=
  {| CoTasks.tasks := [("a", [incr 1; const 2 VNull]); ("b", [incr 3])];
     CoTasks.allowedTasks := None |}.

(** No allow-list; [a] and [pre-a] were registered by hand. *)
Definition by_hand : CoTasks.t handler :=
  {| CoTasks.tasks := [("a", [incr 1]); ("pre-a", [incr 2])];
     CoTasks.allowedTasks := None |}.

(** No allow-list; the one handler of [t] reports its arguments. *)
Definition observer : CoTasks.t handler :=
  {| CoTasks.tasks := [("t", [observe 1])];
     CoTasks.allowedTasks := None |}.

(** No allow-list; only [pre-build] was registered. *)
Definition only_pre_build : CoTasks.t handler :=
  {| CoTasks.tasks := [("pre-build", [incr 1])];
     CoTasks.allowedTasks := None |}.

(** A tasks directory with three files. *)
Definition files_of (dir : string) : list string :=
  if String.eqb dir "tasks" then ["a.js"; "bad.js"; "b.js"] else [].

(** What each file registers. *)
Definition regs_of (file : string) : list (string * handler) :=
  if String.eqb file "a.js" then [("a", incr 1); ("b", incr 2)]
  else if String.eqb file "b.js" then [("a", incr 3)]
  else [].

Definition require_script (dir file : string) : @module handler := script (regs_of file).

(** The same directory, where [bad.js] throws when it is called. *)
Definition require_faulty (dir file : string) : @module handler :=
  if String.eqb file "bad.js" then fun self => (self, Some (Foreign (VStr "boom")))
  else script (regs_of file).

End Demo.

(** * Properties *)

(** ** Dictionaries *)

Section DictFacts.
Context {V : Type}.
Implicit Types (o : Obj.t V) (k : string) (v : V).

Lemma get_set_eq k v o : Obj.get k (Obj.set k v o) = Some v.
Proof.
  induction o as [|[k' v'] o IH]; simpl.
  - now rewrite String.eqb_refl.
  - destruct (String.eqb k k') eqn:E; simpl; rewrite E; auto.
Qed.

Lemma get_set_ne k k' v o : k <> k' -> Obj.get k' (Obj.set k v o) = Obj.get k' o.
Proof.
  intros Hne. induction o as [|[k0 v0] o IH]; simpl.
  - destruct (String.eqb k' k) eqn:E; auto.
    apply String.eqb_eq in E. congruence.
  - destruct (String.eqb k k0) eqn:E; simpl.
    + apply String.eqb_eq in E. subst k0.
      destruct (String.eqb k' k) eqn:E'; auto.
      apply String.eqb_eq in E'. congruence.
    + now rewrite IH.
Qed.

Lemma get_set k k' v o :
  Obj.get k' (Obj.set k v o) = if String.eqb k k' then Some v else Obj.get k' o.
Proof.
  destruct (String.eqb k k') eqn:E.
  - apply String.eqb_eq in E. subst. apply get_set_eq.
  - apply String.eqb_neq in E. now apply get_set_ne.
Qed.

Lemma get_In_fst k o : Obj.get k o <> None <-> In k (List.map fst o).
Proof.
  induction o as [|[k' v'] o IH]; simpl.
  - split; [congruence | tauto].
  - destruct (String.eqb k k') eqn:E.
    + apply String.eqb_eq in E. subst. split; [auto | congruence].
    + apply String.eqb_neq in E. rewrite IH. split; [auto | intros [?|?]; congruence || auto].
Qed.

Lemma indexed_Some k p : Obj.indexed k = Some p -> snd p = k /\ Obj.is_index k = true.
Proof.
  unfold Obj.indexed, Obj.is_index.
  destruct (Obj.array_index k); intros H; inversion H; subst; auto.
Qed.

Lemma is_index_indexed k : Obj.is_index k = true -> exists n, Obj.indexed k = Some (n, k).
Proof.
  unfold Obj.indexed, Obj.is_index.
  destruct (Obj.array_index k) as [n|]; [eauto | discriminate].
Qed.

(** [Object.keys] lists exactly the keys that are set, whatever their
    order. *)
Lemma keys_spec k o : In k (Obj.keys o) <-> Obj.get k o <> None.
Proof.
  rewrite get_In_fst. unfold Obj.keys.
  set (ks := List.map fst o).
  rewrite in_app_iff, filter_In, in_map_iff. split.
  - intros [(p & Hp & Hin) | [Hin _]]; [|exact Hin].
    apply (Permutation.Permutation_in _ (merge_sort_Permutation _ _)) in Hin.
    apply list_elem_of_In, list_elem_of_omap in Hin as (k0 & Hk0 & Hidx).
    apply indexed_Some in Hidx as [Hs _]. apply list_elem_of_In in Hk0. congruence.
  - intros Hin. destruct (Obj.is_index k) eqn:E.
    + left. destruct (is_index_indexed _ E) as [n Hn].
      exists (n, k). split; [reflexivity|].
      apply (Permutation.Permutation_in _
               (Permutation.Permutation_sym (merge_sort_Permutation _ _))).
      apply list_elem_of_In, list_elem_of_omap. exists k. split; [|exact Hn].
      now apply list_elem_of_In.
    + right. split; [exact Hin | reflexivity].
Qed.

End DictFacts.

(** ** The registry: [registerTask] and [defineTasks] *)

Section RegistryFacts.
Context {handler : Type}.
Implicit Types (self : CoTasks.t handler) (fn : handler) (name k : string).
Implicit Types (tasks : Obj.t (list handler)) (st : Obj.t (list handler) * list string).

Lemma registerTask_known name fn self arr :
  Obj.get name (CoTasks.tasks self) = Some arr ->
  registerTask name fn self =
    Ok {| CoTasks.tasks := Obj.set name (arr ++ [fn]) (CoTasks.tasks self);
          CoTasks.allowedTasks := CoTasks.allowedTasks self |}.
Proof. intros H. unfold registerTask, push. rewrite H. simpl. now rewrite H. Qed.

Lemma registerTask_refused name fn self allowed :
  CoTasks.allowedTasks self = Some allowed ->
  Obj.get name (CoTasks.tasks self) = None ->
  registerTask name fn self = Throw (TaskNotAllowed name (Obj.keys (CoTasks.tasks self))).
Proof. intros Ha Hn. unfold registerTask. now rewrite Hn, Ha. Qed.

Lemma registerTask_fresh name fn self :
  CoTasks.allowedTasks self = None ->
  Obj.get name (CoTasks.tasks self) = None ->
  registerTask name fn self =
    Ok {| CoTasks.tasks := Obj.set name [fn] (CoTasks.tasks self);
          CoTasks.allowedTasks := None |}.
Proof.
  intros Ha Hn. unfold registerTask, push. rewrite Hn, Ha. simpl.
  rewrite get_set_eq. simpl. f_equal. f_equal.
  induction (CoTasks.tasks self) as [|[k v] o IH]; simpl in *.
  - now rewrite String.eqb_refl.
  - destruct (String.eqb name k) eqn:E; [discriminate|].
    simpl. rewrite E. f_equal. now apply IH.
Qed.

(** A registration that succeeds puts the handler last under its name
    and touches no other name. *)
Lemma registerTask_handlers_for name fn self self' :
  registerTask name fn self = Ok self' ->
  handlers_for self' name = handlers_for self name ++ [fn]
  /\ forall k, k <> name -> handlers_for self' k = handlers_for self k.
Proof.
  unfold registerTask, handlers_for, push.
  destruct (Obj.get name (CoTasks.tasks self)) as [arr|] eqn:Hg.
  - simpl. rewrite Hg. intros E. inversion E; subst; simpl.
    rewrite get_set_eq. split; [reflexivity|].
    intros k Hk. rewrite get_set_ne; congruence.
  - destruct (CoTasks.allowedTasks self); [discriminate|].
    simpl. rewrite get_set_eq. intros E. inversion E; subst; simpl.
    rewrite get_set_eq. split; [reflexivity|].
    intros k Hk. rewrite !get_set_ne; congruence.
Qed.

(** *** One turn of the loop of [defineTasks] *)

Lemma set_empty_keeps_empty k k' tasks :
  Obj.get k tasks = Some [] -> Obj.get k (Obj.set k' [] tasks) = Some [].
Proof. intros H. rewrite get_set. now destruct (String.eqb k' k). Qed.

Lemma define_task_keeps_empty pre post tasks allowed n k :
  Obj.get k tasks = Some [] ->
  Obj.get k (fst (define_task pre post (tasks, allowed) n)) = Some [].
Proof.
  intros H. unfold define_task.
  destruct (truthy pre), (truthy post); simpl;
    repeat match goal with
           | |- context [if ?b then _ else _] => destruct b
           | |- Obj.get _ (Obj.set _ [] _) = Some [] => apply set_empty_keeps_empty
           end; auto.
Qed.

Lemma define_task_keeps pre post tasks allowed n k arr :
  Obj.get k tasks = Some arr ->
  (truthy pre = true -> k <> "pre-" +:+ n) ->
  (truthy post = true -> k <> "post-" +:+ n) ->
  Obj.get k (fst (define_task pre post (tasks, allowed) n)) = Some arr.
Proof.
  intros H Hpre Hpost. unfold define_task.
  set (t1 := if truthy pre then Obj.set ("pre-" +:+ n) [] tasks else tasks).
  assert (H1 : Obj.get k t1 = Some arr).
  { subst t1. destruct (truthy pre); [|exact H].
    rewrite get_set_ne; [exact H | intros E; now apply Hpre]. }
  set (t2 := if Obj.has n t1 then t1 else Obj.set n [] t1).
  assert (H2 : Obj.get k t2 = Some arr).
  { subst t2. destruct (Obj.has n t1) eqn:E; [exact H1|].
    rewrite get_set_ne; [exact H1|]. intros ->.
    unfold Obj.has in E. now rewrite H1 in E. }
  simpl. destruct (truthy post); [|exact H2].
  rewrite get_set_ne; [exact H2 | intros E; now apply Hpost].
Qed.

Lemma define_task_pre pre post tasks allowed n :
  truthy pre = true ->
  Obj.get ("pre-" +:+ n) (fst (define_task pre post (tasks, allowed) n)) = Some [].
Proof.
  intros Hpre.
  assert (H : forall t, Obj.get ("pre-" +:+ n) (Obj.set ("pre-" +:+ n) [] t)
                        = Some ([] : list handler)) by (intros; apply get_set_eq).
  unfold define_task. rewrite Hpre. simpl.
  destruct (Obj.has n _), (truthy post);
    repeat first [apply H | apply set_empty_keeps_empty].
Qed.

Lemma define_task_post pre post tasks allowed n :
  truthy post = true ->
  Obj.get ("post-" +:+ n) (fst (define_task pre post (tasks, allowed) n)) = Some [].
Proof.
  intros Hpost. unfold define_task. rewrite Hpost. simpl. apply get_set_eq.
Qed.

(** *** The whole loop *)

Lemma define_loop_keeps_empty pre post names st k :
  Obj.get k (fst st) = Some [] ->
  Obj.get k (fst (fold_left (define_task pre post) names st)) = Some [].
Proof.
  revert st. induction names as [|n names IH]; intros [tasks allowed] H; simpl; auto.
  apply IH. now apply define_task_keeps_empty.
Qed.

Lemma define_loop_keeps pre post names st k arr :
  Obj.get k (fst st) = Some arr ->
  (truthy pre = true -> forall n, In n names -> k <> "pre-" +:+ n) ->
  (truthy post = true -> forall n, In n names -> k <> "post-" +:+ n) ->
  Obj.get k (fst (fold_left (define_task pre post) names st)) = Some arr.
Proof.
  revert st. induction names as [|n names IH]; intros [tasks allowed] H Hpre Hpost;
    simpl; auto.
  apply IH.
  - apply define_task_keeps; auto; intros Ht; [apply Hpre | apply Hpost]; simpl; auto.
  - intros Ht m Hm. apply Hpre; simpl; auto.
  - intros Ht m Hm. apply Hpost; simpl; auto.
Qed.

Lemma define_loop_pre pre post names st n :
  truthy pre = true -> In n names ->
  Obj.get ("pre-" +:+ n) (fst (fold_left (define_task pre post) names st)) = Some [].
Proof.
  intros Hpre. revert st.
  induction names as [|m names IH]; intros [tasks allowed] Hin; simpl in *; [tauto|].
  destruct Hin as [-> | Hin]; [|now apply IH].
  apply define_loop_keeps_empty. now apply define_task_pre.
Qed.

Lemma define_loop_post pre post names st n :
  truthy post = true -> In n names ->
  Obj.get ("post-" +:+ n) (fst (fold_left (define_task pre post) names st)) = Some [].
Proof.
  intros Hpost. revert st.
  induction names as [|m names IH]; intros [tasks allowed] Hin; simpl in *; [tauto|].
  destruct Hin as [-> | Hin]; [|now apply IH].
  apply define_loop_keeps_empty. now apply define_task_post.
Qed.

Lemma defineTasks_tasks names pre post self :
  CoTasks.tasks (defineTasks names pre post self)
  = fst (fold_left (define_task pre post) names (CoTasks.tasks self, [])).
Proof. unfold defineTasks. now destruct (fold_left _ _ _). Qed.

Lemma defineTasks_allowed names pre post self :
  exists allowed, CoTasks.allowedTasks (defineTasks names pre post self) = Some allowed.
Proof. unfold defineTasks. destruct (fold_left _ _ _). simpl. eauto. Qed.

End RegistryFacts.

(** ** The executors: [run] and [pipe] *)

Section ExecutorFacts.
Context {handler world : Type}.
Variable invoke : handler -> value -> value -> value -> world -> reply * world.
Implicit Types (self : CoTasks.t handler) (w : world) (e : error).
Implicit Types (ctx args timeout task pipeArg v : value) (res : list entry).
Implicit Types (arr hs : list handler) (items : list value).

Local Notation "x <- m ;; k" := (bind m (fun x => k))
  (at level 100, m at next level, right associativity).

(** *** Sequencing *)

Lemma bind_resolved {A B : Type} (m : M A) (k : A -> M B) w a w' :
  m w = (Resolved a, w') -> bind m k w = k a w'.
Proof. intros H. unfold bind. now rewrite H. Qed.

Lemma bind_assoc {A B C : Type} (m : M A) (k1 : A -> M B) (k2 : B -> M C) w :
  bind (bind m k1) k2 w = bind m (fun a => bind (k1 a) k2) w.
Proof. unfold bind. now destruct (m w) as [[| | |] ?]. Qed.

Lemma bind_ext {A B : Type} (m : M A) (k1 k2 : A -> M B) w :
  (forall a w', k1 a w' = k2 a w') -> bind m k1 w = bind m k2 w.
Proof. intros H. unfold bind. destruct (m w) as [[| | |] ?]; auto. Qed.

Lemma bind_ext_l {A B : Type} (m1 m2 : M A) (k : A -> M B) w :
  (forall w', m1 w' = m2 w') -> bind m1 k w = bind m2 k w.
Proof. intros H. unfold bind. now rewrite H. Qed.

Lemma bind_ret_r {A : Type} (m : M A) w : bind m ret w = m w.
Proof. unfold bind, ret. now destruct (m w) as [[| | |] ?]. Qed.

Lemma for_of_app {A : Type} items1 items2 (body : value -> A -> M A) (acc : A) w :
  for_of (items1 ++ items2) body acc w
  = bind (for_of items1 body acc) (for_of items2 body) w.
Proof.
  revert acc w. induction items1 as [|x items1 IH]; intros acc w; simpl.
  - reflexivity.
  - rewrite bind_assoc. apply bind_ext. intros a w'. apply IH.
Qed.

Lemma co_series_app hs1 hs2 ctx args timeout w :
  co_series invoke (hs1 ++ hs2) ctx args timeout w
  = (rs1 <- co_series invoke hs1 ctx args timeout ;;
     rs2 <- co_series invoke hs2 ctx args timeout ;;
     ret (rs1 ++ rs2)) w.
Proof.
  revert w. induction hs1 as [|fn hs1 IH]; intros w; simpl.
  - change (co_series invoke hs2 ctx args timeout w
            = bind (ret []) (fun rs1 => rs2 <- co_series invoke hs2 ctx args timeout ;;
                                        ret (rs1 ++ rs2)) w).
    unfold bind at 1, ret at 1. simpl. symmetry. apply bind_ret_r.
  - rewrite bind_assoc. apply bind_ext. intros r w1.
    etransitivity; [apply bind_ext_l; intros; apply IH|].
    rewrite !bind_assoc. apply bind_ext. intros rs1 w2.
    rewrite bind_assoc. reflexivity.
Qed.

Lemma co_pipe_app hs1 hs2 ctx pipeArg timeout w :
  co_pipe invoke (hs1 ++ hs2) ctx pipeArg timeout w
  = (v <- co_pipe invoke hs1 ctx pipeArg timeout ;;
     co_pipe invoke hs2 ctx v timeout) w.
Proof.
  revert pipeArg w. induction hs1 as [|fn hs1 IH]; intros pipeArg w; simpl.
  - reflexivity.
  - rewrite bind_assoc. apply bind_ext. intros v w'. apply IH.
Qed.

(** *** What a handler invocation can and cannot end in *)

Lemma call_outcome fn ctx arg timeout w :
  handler_outcome (fst (call invoke fn ctx arg timeout w)).
Proof. unfold call. now destruct (invoke fn ctx arg timeout w) as [[| | |] ?]. Qed.

Lemma co_series_outcome arr ctx args timeout w :
  handler_outcome (fst (co_series invoke arr ctx args timeout w)).
Proof.
  revert w. induction arr as [|fn arr IH]; intros w; simpl; [exact I|].
  pose proof (call_outcome fn ctx args timeout w) as Hc.
  unfold bind at 1. destruct (call invoke fn ctx args timeout w) as [[r| | |] w1]; auto.
  specialize (IH w1). unfold bind, ret.
  now destruct (co_series invoke arr ctx args timeout w1) as [[| | |] ?].
Qed.

Lemma co_pipe_outcome arr ctx pipeArg timeout w :
  handler_outcome (fst (co_pipe invoke arr ctx pipeArg timeout w)).
Proof.
  revert pipeArg w. induction arr as [|fn arr IH]; intros pipeArg w; simpl; [exact I|].
  pose proof (call_outcome fn ctx pipeArg timeout w) as Hc.
  unfold bind. destruct (call invoke fn ctx pipeArg timeout w) as [[r| | |] w1]; auto.
Qed.

(** *** One phase *)

Lemma run_phase_eq self p ctx args timeout res w :
  run_phase invoke self p ctx args timeout res w
  = (rs <- co_series invoke (handlers_for self p) ctx args timeout ;;
     ret (match handlers_for self p with
          | [] => res
          | _ :: _ => res ++ [{| task := p; results := rs |}]
          end)) w.
Proof.
  unfold run_phase, handlers_for.
  destruct (Obj.get p (CoTasks.tasks self)) as [[|fn arr]|]; reflexivity.
Qed.

Lemma pipe_phase_eq self p ctx timeout pipeArg w :
  pipe_phase invoke self p ctx timeout pipeArg w
  = (v <- co_pipe invoke (handlers_for self p) ctx pipeArg timeout ;;
     match handlers_for self p with
     | [] => ret v
     | _ :: _ => if negb (truthy v) then throw InvalidPipeValue else ret v
     end) w.
Proof.
  unfold pipe_phase, handlers_for.
  destruct (Obj.get p (CoTasks.tasks self)) as [[|fn arr]|]; reflexivity.
Qed.

Lemma run_phase_outcome self p ctx args timeout res w :
  handler_outcome (fst (run_phase invoke self p ctx args timeout res w)).
Proof.
  rewrite run_phase_eq. unfold bind, ret.
  pose proof (co_series_outcome (handlers_for self p) ctx args timeout w) as H.
  now destruct (co_series invoke _ ctx args timeout w) as [[| | |] ?].
Qed.

Lemma pipe_phase_outcome self p ctx timeout pipeArg w e w' :
  pipe_phase invoke self p ctx timeout pipeArg w = (Rejected e, w') ->
  handler_error e \/ e = InvalidPipeValue.
Proof.
  rewrite pipe_phase_eq. unfold bind, ret, throw.
  pose proof (co_pipe_outcome (handlers_for self p) ctx pipeArg timeout w) as H.
  destruct (co_pipe invoke _ ctx pipeArg timeout w) as [[v| | |] w1]; simpl in H;
    try discriminate.
  - destruct (handlers_for self p); [discriminate|].
    destruct (negb (truthy v)); intros E; inversion E; auto.
  - intros E; inversion E; subst; auto.
Qed.


(** A phase without handlers is passed over: nothing is invoked, nothing
    is reported and the pipe value stays as it is. *)
Lemma run_phase_empty self p ctx args timeout res w :
  handlers_for self p = [] ->
  run_phase invoke self p ctx args timeout res w = (Resolved res, w).
Proof. intros H. rewrite run_phase_eq, H. reflexivity. Qed.

Lemma pipe_phase_empty self p ctx timeout pipeArg w :
  handlers_for self p = [] ->
  pipe_phase invoke self p ctx timeout pipeArg w = (Resolved pipeArg, w).
Proof. intros H. rewrite pipe_phase_eq, H. reflexivity. Qed.

(** *** [run] against the flat schedule *)

Lemma all_results_app res1 res2 :
  all_results (res1 ++ res2) = all_results res1 ++ all_results res2.
Proof. unfold all_results. now rewrite List.map_app, concat_app. Qed.

Lemma flatten_run_phase self p ctx args timeout res w :
  flatten_run (run_phase invoke self p ctx args timeout res w)
  = (rs <- co_series invoke (handlers_for self p) ctx args timeout ;;
     ret (all_results res ++ rs)) w.
Proof.
  rewrite run_phase_eq. unfold flatten_run, bind, ret.
  destruct (co_series invoke (handlers_for self p) ctx args timeout w)
    as [[rs| | |] w1] eqn:E; simpl; auto.
  destruct (handlers_for self p) eqn:Hp.
  - simpl in E. inversion E. now rewrite app_nil_r.
  - rewrite all_results_app. unfold all_results at 2. simpl. now rewrite app_nil_r.
Qed.

(** Two steps that each report the results of their handlers report,
    one after the other, the results of both. *)
Lemma flatten_run_bind (m1 m2 : list entry -> M (list entry)) hs1 hs2 ctx args timeout :
  (forall res w, flatten_run (m1 res w)
                 = (rs <- co_series invoke hs1 ctx args timeout ;;
                    ret (all_results res ++ rs)) w) ->
  (forall res w, flatten_run (m2 res w)
                 = (rs <- co_series invoke hs2 ctx args timeout ;;
                    ret (all_results res ++ rs)) w) ->
  forall res w,
    flatten_run (bind (m1 res) m2 w)
    = (rs <- co_series invoke (hs1 ++ hs2) ctx args timeout ;;
       ret (all_results res ++ rs)) w.
Proof.
  intros H1 H2 res w.
  etransitivity; [|symmetry; apply bind_ext_l; intros; apply co_series_app].
  rewrite bind_assoc. specialize (H1 res w). revert H1.
  unfold bind at 1 2 3, flatten_run at 1, ret at 1.
  destruct (m1 res w) as [o1 w1]; simpl.
  destruct (co_series invoke hs1 ctx args timeout w) as [[rs1| | |] w1'];
    destruct o1 as [res1| | |]; simpl; intros E; inversion E; subst; try reflexivity.
  rewrite H2. rewrite bind_assoc. apply bind_ext. intros rs2 w2.
  unfold bind, ret. rewrite H0. now rewrite app_assoc.
Qed.

Lemma flatten_run_task self ctx args timeout task res w :
  known self (to_string task) ->
  flatten_run (run_task invoke self ctx args timeout task res w)
  = (rs <- co_series invoke (flat_map (handlers_for self) (phases_of (to_string task)))
             ctx args timeout ;;
     ret (all_results res ++ rs)) w.
Proof.
  intros Hk. unfold run_task, known in *.
  destruct (Obj.get (to_string task) (CoTasks.tasks self)); [clear Hk | congruence].
  simpl flat_map. rewrite app_nil_r. revert res w.
  apply flatten_run_bind; [intros; apply flatten_run_phase|].
  apply flatten_run_bind; intros; apply flatten_run_phase.
Qed.

Lemma flatten_run_loop self ctx args timeout items :
  Forall (fun task => known self (to_string task)) items ->
  forall res w,
    flatten_run (for_of items (run_task invoke self ctx args timeout) res w)
    = (rs <- co_series invoke (schedule self (List.map to_string items)) ctx args timeout ;;
       ret (all_results res ++ rs)) w.
Proof.
  induction 1 as [|task items Hk _ IH]; intros res w.
  - unfold flatten_run, bind, ret. simpl. now rewrite app_nil_r.
  - simpl for_of. unfold schedule. simpl List.map. simpl flat_map.
    revert res w. apply flatten_run_bind; [|exact IH].
    intros. now apply flatten_run_task.
Qed.

(** *** Inverting a sequence *)

Lemma bind_resolved_inv {A B : Type} (m : M A) (k : A -> M B) w b w' :
  bind m k w = (Resolved b, w') ->
  exists a w1, m w = (Resolved a, w1) /\ k a w1 = (Resolved b, w').
Proof.
  unfold bind. destruct (m w) as [[a| | |] w1]; try discriminate. eauto.
Qed.

Lemma bind_rejected_inv {A B : Type} (m : M A) (k : A -> M B) w e w' :
  bind m k w = (Rejected e, w') ->
  m w = (Rejected e, w') \/ exists a w1, m w = (Resolved a, w1) /\ k a w1 = (Rejected e, w').
Proof.
  unfold bind. destruct (m w) as [[a| | |] w1]; try discriminate; intros E.
  - right. exists a, w1. auto.
  - inversion E; subst. now left.
Qed.

Lemma bind_rejected {A B : Type} (m : M A) (k : A -> M B) w e w' :
  m w = (Rejected e, w') -> bind m k w = (Rejected e, w').
Proof. intros H. unfold bind. now rewrite H. Qed.

(** *** The entries of the report *)




(** *** [pipe] against the flat schedule *)

Lemma pipe_follows_phase self p ctx timeout v w :
  pipe_follows invoke (handlers_for self p) ctx timeout v w
    (pipe_phase invoke self p ctx timeout v w).
Proof.
  rewrite pipe_phase_eq. unfold pipe_follows, bind.
  destruct (co_pipe invoke (handlers_for self p) ctx v timeout w) as [[v'| | |] w1] eqn:E;
    auto.
  destruct (handlers_for self p) as [|fn arr] eqn:Hp; [now left|].
  destruct (truthy v') eqn:Ht; simpl; [now left|].
  right. split; [reflexivity|].
  exists (fn :: arr), [], v'. now rewrite app_nil_r.
Qed.

Lemma pipe_follows_bind (m1 m2 : value -> M value) hs1 hs2 ctx timeout :
  (forall v w, pipe_follows invoke hs1 ctx timeout v w (m1 v w)) ->
  (forall v w, pipe_follows invoke hs2 ctx timeout v w (m2 v w)) ->
  forall v w, pipe_follows invoke (hs1 ++ hs2) ctx timeout v w (bind (m1 v) m2 w).
Proof.
  intros H1 H2 v w.
  destruct (H1 v w) as [E1 | (E1 & front & rest & v' & Hs & Hf & Ht)].
  - destruct (m1 v w) as [o1 w1] eqn:Em.
    destruct o1 as [v1| | |].
    + rewrite (bind_resolved _ _ _ _ _ Em).
      destruct (H2 v1 w1) as [E2 | (E2 & front & rest & v' & Hs & Hf & Ht)].
      * left. now rewrite co_pipe_app, (bind_resolved _ _ _ _ _ E1).
      * right. split; [exact E2|].
        exists (hs1 ++ front), rest, v'. split; [now rewrite Hs, app_assoc|].
        split; [|exact Ht]. now rewrite co_pipe_app, (bind_resolved _ _ _ _ _ E1).
    + left. rewrite co_pipe_app. unfold bind. now rewrite E1, Em.
    + left. rewrite co_pipe_app. unfold bind. now rewrite E1, Em.
    + left. rewrite co_pipe_app. unfold bind. now rewrite E1, Em.
  - right. destruct (m1 v w) as [o1 w1] eqn:Em. simpl in E1, Hf. subst o1.
    unfold bind. rewrite Em. simpl. split; [reflexivity|].
    exists front, (rest ++ hs2), v'. split; [now rewrite Hs, app_assoc|]. now split.
Qed.

Lemma pipe_follows_task self ctx timeout task v w :
  known self (to_string task) ->
  pipe_follows invoke (flat_map (handlers_for self) (phases_of (to_string task)))
    ctx timeout v w (pipe_task invoke self ctx timeout task v w).
Proof.
  intros Hk. unfold pipe_task, known in *.
  destruct (Obj.get (to_string task) (CoTasks.tasks self)); [clear Hk | congruence].
  simpl flat_map. rewrite app_nil_r. revert v w.
  apply pipe_follows_bind; [intros; apply pipe_follows_phase|].
  apply pipe_follows_bind; intros; apply pipe_follows_phase.
Qed.

Lemma pipe_follows_loop self ctx timeout items :
  Forall (fun task => known self (to_string task)) items ->
  forall v w,
    pipe_follows invoke (schedule self (List.map to_string items)) ctx timeout v w
      (for_of items (pipe_task invoke self ctx timeout) v w).
Proof.
  induction 1 as [|task items Hk _ IH]; intros v w.
  - now left.
  - simpl for_of. unfold schedule. cbn [List.map flat_map].
    revert v w. apply pipe_follows_bind; [|exact IH].
    intros. now apply pipe_follows_task.
Qed.

(** *** Unknown task names *)

Lemma run_task_unknown self ctx args timeout task res w :
  Obj.get (to_string task) (CoTasks.tasks self) = None ->
  run_task invoke self ctx args timeout task res w
  = (Rejected (UnknownTask (to_string task)), w).
Proof. intros H. unfold run_task. now rewrite H. Qed.

Lemma pipe_task_unknown self ctx timeout task v w :
  Obj.get (to_string task) (CoTasks.tasks self) = None ->
  pipe_task invoke self ctx timeout task v w
  = (Rejected (UnknownTask (to_string task)), w).
Proof. intros H. unfold pipe_task. now rewrite H. Qed.

Lemma run_phase_not_unknown self p ctx args timeout res w t w' :
  run_phase invoke self p ctx args timeout res w <> (Rejected (UnknownTask t), w').
Proof.
  intros E. pose proof (run_phase_outcome self p ctx args timeout res w) as H.
  now rewrite E in H.
Qed.

Lemma pipe_phase_not_unknown self p ctx timeout v w t w' :
  pipe_phase invoke self p ctx timeout v w <> (Rejected (UnknownTask t), w').
Proof.
  intros E. apply pipe_phase_outcome in E as [H | H]; [exact H | discriminate].
Qed.

Lemma run_task_unknown_iff self ctx args timeout task res w t w' :
  run_task invoke self ctx args timeout task res w = (Rejected (UnknownTask t), w')
  <-> to_string task = t /\ Obj.get t (CoTasks.tasks self) = None /\ w' = w.
Proof.
  split.
  - unfold run_task.
    destruct (Obj.get (to_string task) (CoTasks.tasks self)) eqn:Hg.
    + intros E. exfalso.
      apply bind_rejected_inv in E as [E | (r1 & w1 & _ & E)];
        [now apply run_phase_not_unknown in E|].
      apply bind_rejected_inv in E as [E | (r2 & w2 & _ & E)];
        now apply run_phase_not_unknown in E.
    + unfold throw. intros E. inversion E; subst. auto.
  - intros (<- & Hg & ->). now apply run_task_unknown.
Qed.

Lemma pipe_task_unknown_iff self ctx timeout task v w t w' :
  pipe_task invoke self ctx timeout task v w = (Rejected (UnknownTask t), w')
  <-> to_string task = t /\ Obj.get t (CoTasks.tasks self) = None /\ w' = w.
Proof.
  split.
  - unfold pipe_task.
    destruct (Obj.get (to_string task) (CoTasks.tasks self)) eqn:Hg.
    + intros E. exfalso.
      apply bind_rejected_inv in E as [E | (r1 & w1 & _ & E)];
        [now apply pipe_phase_not_unknown in E|].
      apply bind_rejected_inv in E as [E | (r2 & w2 & _ & E)];
        now apply pipe_phase_not_unknown in E.
    + unfold throw. intros E. inversion E; subst. auto.
  - intros (<- & Hg & ->). now apply pipe_task_unknown.
Qed.

(** A loop whose body fails with [UnknownTask] on the unregistered names
    only (and then at once) fails with [UnknownTask t] exactly when it
    gets as far as a requested name [t] that is not registered. *)
Lemma for_of_unknown_iff {A : Type} self (body : value -> A -> M A) :
  (forall x acc w t w',
      body x acc w = (Rejected (UnknownTask t), w')
      <-> to_string x = t /\ Obj.get t (CoTasks.tasks self) = None /\ w' = w) ->
  forall items acc w t w',
    for_of items body acc w = (Rejected (UnknownTask t), w')
    <-> exists before x after acc',
          items = before ++ x :: after
          /\ to_string x = t
          /\ Obj.get t (CoTasks.tasks self) = None
          /\ for_of before body acc w = (Resolved acc', w').
Proof.
  intros Hbody items. induction items as [|x items IH]; intros acc w t w'.
  - split.
    + simpl. unfold ret. discriminate.
    + intros (before & y & after & acc' & Hs & _). now destruct before.
  - split.
    + simpl. intros E. apply bind_rejected_inv in E as [E | (a & w1 & E1 & E)].
      * apply Hbody in E as (Ht & Hg & ->).
        exists [], x, items, acc. simpl. auto.
      * apply IH in E as (before & y & after & acc' & -> & Ht & Hg & Hb).
        exists (x :: before), y, after, acc'. simpl. repeat split; auto.
        now rewrite (bind_resolved _ _ _ _ _ E1).
    + intros (before & y & after & acc' & Hs & Ht & Hg & Hb).
      rewrite Hs, for_of_app, (bind_resolved _ _ _ _ _ Hb). simpl.
      apply bind_rejected. apply Hbody. auto.
Qed.

(** *** The calls and their loops *)

Lemma run_array self items ctx args timeout w :
  run invoke self (VArr items) ctx args timeout w
  = for_of items (run_task invoke self ctx args timeout) [] w.
Proof. reflexivity. Qed.

Lemma pipe_unfold self tasks ctx0 pipeArg timeout0 items ctx v0 timeout w :
  pipe_args self tasks ctx0 pipeArg timeout0 = (VArr items, ctx, v0, timeout) ->
  pipe invoke self tasks ctx0 pipeArg timeout0 w
  = for_of items (pipe_task invoke self ctx timeout) v0 w.
Proof. intros H. unfold pipe. now rewrite H. Qed.

Lemma pipe_phases_app self ctx timeout ps1 ps2 v w :
  pipe_phases invoke self ctx timeout (ps1 ++ ps2) v w
  = bind (pipe_phases invoke self ctx timeout ps1 v)
         (pipe_phases invoke self ctx timeout ps2) w.
Proof.
  revert v w. induction ps1 as [|p ps1 IH]; intros v w; simpl.
  - reflexivity.
  - rewrite bind_assoc. apply bind_ext. intros a w'. apply IH.
Qed.

Lemma pipe_task_phases self ctx timeout task v w :
  known self (to_string task) ->
  pipe_task invoke self ctx timeout task v w
  = pipe_phases invoke self ctx timeout (phases_of (to_string task)) v w.
Proof.
  intros Hk. unfold pipe_task, known in *.
  destruct (Obj.get (to_string task) (CoTasks.tasks self)); [clear Hk | congruence].
  simpl. do 2 (apply bind_ext; intros). symmetry. apply bind_ret_r.
Qed.

Lemma pipe_loop_resolved_known self ctx timeout items :
  forall v w v' w',
    for_of items (pipe_task invoke self ctx timeout) v w = (Resolved v', w') ->
    Forall (fun task => known self (to_string task)) items.
Proof.
  induction items as [|task items IH]; intros v w v' w' E; [constructor|].
  simpl in E. apply bind_resolved_inv in E as (v1 & w1 & E1 & E).
  constructor; [|eapply IH; eauto].
  unfold known. intros Hn. rewrite (pipe_task_unknown _ _ _ _ _ _ Hn) in E1. discriminate.
Qed.

(** A phase whose chain ends on a falsy value ends the whole loop. *)
Lemma pipe_loop_aborts self ctx timeout before task after ps1 p ps2
    v0 w0 v1 w1 v2 w2 v3 w3 :
  for_of before (pipe_task invoke self ctx timeout) v0 w0 = (Resolved v1, w1) ->
  known self (to_string task) ->
  phases_of (to_string task) = ps1 ++ p :: ps2 ->
  pipe_phases invoke self ctx timeout ps1 v1 w1 = (Resolved v2, w2) ->
  handlers_for self p <> [] ->
  co_pipe invoke (handlers_for self p) ctx v2 timeout w2 = (Resolved v3, w3) ->
  truthy v3 = false ->
  for_of (before ++ task :: after) (pipe_task invoke self ctx timeout) v0 w0
  = (Rejected InvalidPipeValue, w3).
Proof.
  intros Hb Hk Hps H1 Hne Hc Hf.
  rewrite for_of_app, (bind_resolved _ _ _ _ _ Hb). simpl.
  apply bind_rejected.
  rewrite pipe_task_phases, Hps, pipe_phases_app, (bind_resolved _ _ _ _ _ H1) by exact Hk.
  simpl. apply bind_rejected.
  rewrite pipe_phase_eq, (bind_resolved _ _ _ _ _ Hc).
  destruct (handlers_for self p); [congruence|]. now rewrite Hf.
Qed.

(** *** The properties of [run] and [pipe] *)

(** C1: on a fresh instance, after [defineTasks(['build'], true, true)]
    and the registration of [h1] under [pre-build], [h2] under [build] and
    [h3] under [post-build], [run('build', ctx, args)] resolves to the
    report of three entries, one per phase in the order pre, main, post,
    each holding the returned value of the handler of that phase.  (The
    entries carry the phase name under the key [task].) *)
Theorem run_build_report (h1 h2 h3 : handler) ctx args timeout r1 r2 r3 w0 w1 w2 w3 :
  invoke h1 ctx args timeout w0 = (Returned r1, w1) ->
  invoke h2 ctx args timeout w1 = (Returned r2, w2) ->
  invoke h3 ctx args timeout w2 = (Returned r3, w3) ->
  exists self,
    register_all [("pre-build", h1); ("build", h2); ("post-build", h3)]
      (defineTasks ["build"] (VBool true) (VBool true) create) = Ok self
    /\ run invoke self (VStr "build") ctx args timeout w0
       = (Resolved [ {| task := "pre-build"; results := [r1] |};
                     {| task := "build"; results := [r2] |};
                     {| task := "post-build"; results := [r3] |} ], w3).
Proof.
  intros H1 H2 H3. eexists. split; [vm_compute; reflexivity|].
  vm_compute. rewrite H1. vm_compute. rewrite H2. vm_compute. rewrite H3. reflexivity.
Qed.

(** C2 (what the code does): when the [tasks] argument of [run] is falsy
    and no allow-list was defined, the loop is handed [null] and the call
    is rejected with the [TypeError] of the runtime; the error that [pipe]
    raises in the same situation is never raised by [run]. *)
Theorem run_without_tasks self tasks ctx args timeout w :
  truthy tasks = false ->
  CoTasks.allowedTasks self = None ->
  run invoke self tasks ctx args timeout w = (Rejected NotIterable, w)
  /\ run invoke self tasks ctx args timeout w <> (Rejected NoTasksSpecified, w)
  /\ run invoke self tasks ctx args timeout w <> (Thrown NoTasksSpecified, w).
Proof.
  intros Hf Ha. unfold run. rewrite Hf, Ha. simpl. repeat split; discriminate.
Qed.

(** The phases chained without any check. *)
Lemma schedule_phases self names :
  schedule self names = flat_map (handlers_for self) (flat_map phases_of names).
Proof.
  induction names as [|n names IH]; [reflexivity|].
  cbn [flat_map]. rewrite flat_map_app, <- IH. reflexivity.
Qed.

Lemma pipe_phase_chain self p ctx timeout v w :
  match co_pipe invoke (handlers_for self p) ctx v timeout w with
  | (Resolved v', _) => handlers_for self p = [] \/ truthy v' = true
  | _ => True
  end ->
  pipe_phase invoke self p ctx timeout v w
  = co_pipe invoke (handlers_for self p) ctx v timeout w.
Proof.
  rewrite pipe_phase_eq. unfold bind.
  destruct (co_pipe invoke (handlers_for self p) ctx v timeout w) as [[v'| | |] w1];
    try reflexivity.
  destruct (handlers_for self p) as [|fn arr]; [reflexivity|].
  intros [H | H]; [discriminate | now rewrite H].
Qed.

Lemma pipe_phases_chain self ctx timeout ps :
  forall v w,
    ends_truthy invoke self ctx timeout ps v w ->
    pipe_phases invoke self ctx timeout ps v w
    = co_pipe invoke (flat_map (handlers_for self) ps) ctx v timeout w.
Proof.
  induction ps as [|p ps IH]; intros v w H; [reflexivity|].
  cbn [pipe_phases flat_map]. rewrite co_pipe_app. simpl in H.
  assert (Hp : pipe_phase invoke self p ctx timeout v w
               = co_pipe invoke (handlers_for self p) ctx v timeout w).
  { apply pipe_phase_chain.
    destruct (co_pipe invoke (handlers_for self p) ctx v timeout w) as [[v'| | |] w1];
      tauto. }
  unfold bind at 1 2. rewrite Hp.
  destruct (co_pipe invoke (handlers_for self p) ctx v timeout w) as [[v'| | |] w1];
    try reflexivity.
  apply IH. tauto.
Qed.

Lemma pipe_loop_phases self ctx timeout items :
  Forall (fun task => known self (to_string task)) items ->
  forall v w,
    for_of items (pipe_task invoke self ctx timeout) v w
    = pipe_phases invoke self ctx timeout
        (flat_map phases_of (List.map to_string items)) v w.
Proof.
  induction 1 as [|task items Hk _ IH]; intros v w; [reflexivity|].
  cbn [for_of List.map flat_map]. rewrite pipe_phases_app.
  etransitivity; [apply bind_ext_l; intros; now apply pipe_task_phases|].
  apply bind_ext. intros. apply IH.
Qed.

(** C4: in a [pipe] call, when the chain of a phase that has handlers
    ends on a falsy value, the call fails with [InvalidPipeValue] in the
    world that chain left behind, whatever phases and tasks were still to
    come; when the call succeeds, the value it returns is the one the
    whole chain of scheduled handlers ends on; and when no phase that has
    handlers ends on a falsy value, the call is the whole chain: it
    returns the value the last handler returns. *)
Theorem pipe_invalid_value self tasks ctx0 pipeArg timeout0 items ctx v0 timeout w0 :
  pipe_args self tasks ctx0 pipeArg timeout0 = (VArr items, ctx, v0, timeout) ->
  (forall before task after ps1 p ps2 v1 w1 v2 w2 v3 w3,
      items = before ++ task :: after ->
      for_of before (pipe_task invoke self ctx timeout) v0 w0 = (Resolved v1, w1) ->
      known self (to_string task) ->
      phases_of (to_string task) = ps1 ++ p :: ps2 ->
      pipe_phases invoke self ctx timeout ps1 v1 w1 = (Resolved v2, w2) ->
      handlers_for self p <> [] ->
      co_pipe invoke (handlers_for self p) ctx v2 timeout w2 = (Resolved v3, w3) ->
      truthy v3 = false ->
      pipe invoke self tasks ctx0 pipeArg timeout0 w0 = (Rejected InvalidPipeValue, w3))
  /\ (forall v w',
        pipe invoke self tasks ctx0 pipeArg timeout0 w0 = (Resolved v, w') ->
        co_pipe invoke (schedule self (List.map to_string items)) ctx v0 timeout w0
        = (Resolved v, w'))
  /\ (Forall (fun task => known self (to_string task)) items ->
      ends_truthy invoke self ctx timeout
        (flat_map phases_of (List.map to_string items)) v0 w0 ->
      pipe invoke self tasks ctx0 pipeArg timeout0 w0
      = co_pipe invoke (schedule self (List.map to_string items)) ctx v0 timeout w0).
Proof.
  intros Hargs. split; [|split].
  - intros before task after ps1 p ps2 v1 w1 v2 w2 v3 w3 -> Hb Hk Hps H1 Hne Hc Hf.
    rewrite (pipe_unfold _ _ _ _ _ _ _ _ _ _ Hargs).
    eapply pipe_loop_aborts; eauto.
  - intros v w'. rewrite (pipe_unfold _ _ _ _ _ _ _ _ _ _ Hargs). intros E.
    pose proof (pipe_loop_resolved_known _ _ _ _ _ _ _ _ E) as Hk.
    destruct (pipe_follows_loop self ctx timeout items Hk v0 w0) as [H | [H _]].
    + now rewrite H.
    + rewrite E in H. discriminate.
  - intros Hk He. rewrite (pipe_unfold _ _ _ _ _ _ _ _ _ _ Hargs).
    rewrite (pipe_loop_phases _ _ _ _ Hk), schedule_phases.
    now apply pipe_phases_chain.
Qed.

(** X22: when the requested names are ordinary ones (none is a member of
    [Object.prototype]), a [run] or [pipe] call fails with [UnknownTask t]
    exactly when, the names requested before it having run to completion,
    it comes to a requested name [t] that has no handler list at all; a
    name that has a list, be it empty, never makes a call fail with
    [UnknownTask]; and the turn of the loop for an ordinary name [t] fails
    with [UnknownTask t] exactly when [t] has no handler list. *)
Theorem unknown_task_exactly self t :
  (forall items ctx args timeout w w',
      Forall (fun task => Plain.ordinary (to_string task)) items ->
      run invoke self (VArr items) ctx args timeout w = (Rejected (UnknownTask t), w')
      <-> exists before task after report,
            items = before ++ task :: after
            /\ to_string task = t
            /\ Obj.get t (CoTasks.tasks self) = None
            /\ run invoke self (VArr before) ctx args timeout w = (Resolved report, w'))
  /\ (forall tasks ctx0 pipeArg timeout0 items ctx v0 timeout w w',
        pipe_args self tasks ctx0 pipeArg timeout0 = (VArr items, ctx, v0, timeout) ->
        Forall (fun task => Plain.ordinary (to_string task)) items ->
        pipe invoke self tasks ctx0 pipeArg timeout0 w = (Rejected (UnknownTask t), w')
        <-> exists before task after v,
              items = before ++ task :: after
              /\ to_string task = t
              /\ Obj.get t (CoTasks.tasks self) = None
              /\ for_of before (pipe_task invoke self ctx timeout) v0 w = (Resolved v, w'))
  /\ (forall arr,
        Obj.get t (CoTasks.tasks self) = Some arr ->
        (forall tasks ctx args timeout w w',
            run invoke self tasks ctx args timeout w <> (Rejected (UnknownTask t), w'))
        /\ (forall tasks ctx pipeArg timeout w w',
              pipe invoke self tasks ctx pipeArg timeout w <> (Rejected (UnknownTask t), w')))
  /\ (forall task ctx args timeout res pipeArg w,
        to_string task = t ->
        Plain.ordinary t ->
        (run_task invoke self ctx args timeout task res w = (Rejected (UnknownTask t), w)
         <-> Obj.get t (CoTasks.tasks self) = None)
        /\ (pipe_task invoke self ctx timeout task pipeArg w = (Rejected (UnknownTask t), w)
            <-> Obj.get t (CoTasks.tasks self) = None)).
Proof.
  split; [|split; [|split]]; cycle 3.
  { intros task ctx args timeout res pipeArg w Ht _.
    rewrite run_task_unknown_iff, pipe_task_unknown_iff. tauto. }
  - intros items ctx args timeout w w' _. rewrite run_array.
    apply for_of_unknown_iff. intros. apply run_task_unknown_iff.
  - intros tasks ctx0 pipeArg timeout0 items ctx v0 timeout w w' Hargs _.
    rewrite (pipe_unfold _ _ _ _ _ _ _ _ _ _ Hargs).
    apply for_of_unknown_iff. intros. apply pipe_task_unknown_iff.
  - intros arr Hg. split.
    + intros tasks ctx args timeout w w'. unfold run.
      destruct (iterate _) as [items|]; [|discriminate].
      intros E. apply (for_of_unknown_iff self) in E
        as (before & task & after & acc' & _ & _ & Hn & _); [congruence|].
      intros. apply run_task_unknown_iff.
    + intros tasks ctx pipeArg timeout w w'. unfold pipe.
      destruct (pipe_args _ _ _ _ _) as [[[tasks' ctx'] v0] timeout'].
      destruct (negb (truthy tasks')); [discriminate|].
      destruct (iterate _) as [items|]; [|discriminate].
      intros E. apply (for_of_unknown_iff self) in E
        as (before & task & after & acc' & _ & _ & Hn & _); [congruence|].
      intros. apply pipe_task_unknown_iff.
Qed.


(** C8: a [pipe] call whose first argument is neither a string nor an
    array, on an instance without allow-list, throws the error
    "Set allowedTasks option or use tasks argument!". *)
Theorem pipe_without_tasks self tasks ctx pipeArg timeout w :
  CoTasks.allowedTasks self = None ->
  typeof tasks <> "string" ->
  isArray tasks = false ->
  pipe invoke self tasks ctx pipeArg timeout w = (Thrown NoTasksSpecified, w)
  /\ message NoTasksSpecified = Some "Set allowedTasks option or use tasks argument!".
Proof.
  intros Ha Hs Harr. split; [|reflexivity].
  unfold pipe, pipe_args.
  apply String.eqb_neq in Hs. rewrite Hs, Harr, Ha, orb_true_r. simpl.
  now destruct (_ || _).
Qed.

(** C9: in [pipe(tasks, ctx, initialValue, timeout)] with [tasks] an array
    and [initialValue] a number or [undefined], the body runs with [null]
    as context and the given [ctx] as pipe value, so that the handlers of
    the schedule are chained from [ctx] with context [null];
    [initialValue] plays no part in the call. *)
Theorem pipe_rebinds_arguments self items ctx pipeArg timeout :
  typeof pipeArg = "number" \/ pipeArg = VUndefined ->
  pipe_args self (VArr items) ctx pipeArg timeout = (VArr items, VNull, ctx, timeout)
  /\ (forall w,
        pipe invoke self (VArr items) ctx pipeArg timeout w
        = for_of items (pipe_task invoke self VNull timeout) ctx w)
  /\ (Forall (fun task => known self (to_string task)) items ->
      forall w,
        pipe_follows invoke (schedule self (List.map to_string items)) VNull timeout ctx w
          (pipe invoke self (VArr items) ctx pipeArg timeout w)).
Proof.
  intros H.
  assert (Hargs : pipe_args self (VArr items) ctx pipeArg timeout
                  = (VArr items, VNull, ctx, timeout)).
  { unfold pipe_args. simpl.
    destruct H as [H | ->]; [now rewrite H | reflexivity]. }
  split; [exact Hargs|]. split.
  - intros w. now apply pipe_unfold.
  - intros Hk w. rewrite (pipe_unfold _ _ _ _ _ _ _ _ _ _ Hargs).
    now apply pipe_follows_loop.
Qed.

End ExecutorFacts.

(** ** The properties of the registry *)

Section RegistryClaims.
Context {handler : Type}.
Implicit Types (self : CoTasks.t handler) (fn : handler) (name k x : string).

(** X23: with an allow-list in force, [registerTask] on an ordinary
    name (not a member of [Object.prototype]) that has no handler list
    fails with the error whose message lists [Object.keys(this.tasks)],
    that is every name that has a list; on a name that has a list, empty
    or not, it puts the handler at the end of that list and leaves the
    handlers before it, the other lists and the allow-list as they
    were. *)
Theorem registerTask_allow_list self name fn :
  (forall allowed,
      Plain.ordinary name ->
      CoTasks.allowedTasks self = Some allowed ->
      Obj.get name (CoTasks.tasks self) = None ->
      registerTask name fn self = Throw (TaskNotAllowed name (Obj.keys (CoTasks.tasks self)))
      /\ message (TaskNotAllowed name (Obj.keys (CoTasks.tasks self)))
         = Some ("Task name " +:+ name +:+ " not defined!" +:+ String "010" "Allowed tasks are: "
                   +:+ String.concat ", " (Obj.keys (CoTasks.tasks self)))
      /\ forall k, In k (Obj.keys (CoTasks.tasks self)) <-> known self k)
  /\ (forall arr,
        Obj.get name (CoTasks.tasks self) = Some arr ->
        exists self',
          registerTask name fn self = Ok self'
          /\ Obj.get name (CoTasks.tasks self') = Some (arr ++ [fn])
          /\ (forall k, k <> name ->
                Obj.get k (CoTasks.tasks self') = Obj.get k (CoTasks.tasks self))
          /\ CoTasks.allowedTasks self' = CoTasks.allowedTasks self).
Proof.
  split.
  - intros allowed _ Ha Hn. split; [now apply (registerTask_refused _ _ _ allowed)|].
    split; [reflexivity|]. intros k. apply keys_spec.
  - intros arr Hg. eexists. split; [apply (registerTask_known _ _ _ _ Hg)|]. simpl.
    split; [apply get_set_eq|]. split; [|reflexivity].
    intros k Hk. apply get_set_ne. congruence.
Qed.

(** C3 (amended): with an allow-list in force, registering a handler
    under a phase name [pre-x] or [post-x] succeeds when that phase name
    has a handler list, as it has after [defineTasks] was called with the
    matching flag for a list of names that holds [x]; when the phase name
    has no list it fails like any other name: phase names are not exempt
    from the check. *)
Theorem registerTask_phase_name self allowed x name fn :
  CoTasks.allowedTasks self = Some allowed ->
  name = "pre-" +:+ x \/ name = "post-" +:+ x ->
  (known self name ->
     exists self',
       registerTask name fn self = Ok self'
       /\ Obj.get name (CoTasks.tasks self') = Some (handlers_for self name ++ [fn]))
  /\ (Obj.get name (CoTasks.tasks self) = None ->
      registerTask name fn self = Throw (TaskNotAllowed name (Obj.keys (CoTasks.tasks self))))
  /\ (forall names regPre regPost self0,
        self = defineTasks names regPre regPost self0 ->
        In x names ->
        (name = "pre-" +:+ x -> truthy regPre = true -> known self name)
        /\ (name = "post-" +:+ x -> truthy regPost = true -> known self name)).
Proof.
  intros Ha Hname. split; [|split].
  - unfold known, handlers_for.
    destruct (Obj.get name (CoTasks.tasks self)) as [arr|] eqn:Hg; [intros _ | congruence].
    eexists. split; [apply (registerTask_known _ _ _ _ Hg)|]. simpl. apply get_set_eq.
  - intros Hn. now apply (registerTask_refused _ _ _ allowed).
  - intros names regPre regPost self0 -> Hin. unfold known.
    rewrite defineTasks_tasks. split; intros -> Ht.
    + now rewrite define_loop_pre.
    + now rewrite define_loop_post.
Qed.

(** C10 (amended): after [defineTasks(names, regPre, regPost)], a main
    handler list that existed before the call is as it was, provided its
    name is not the pre- (post-) phase name of a listed name while
    [regPre] ([regPost]) is set; and for every listed name, when [regPre]
    ([regPost]) is set, the pre- (post-) list of that name is the empty
    list, whatever handlers it held before. *)
Theorem defineTasks_lists names regPre regPost self name :
  In name names ->
  (forall arr,
      Obj.get name (CoTasks.tasks self) = Some arr ->
      (truthy regPre = true -> forall n, In n names -> name <> "pre-" +:+ n) ->
      (truthy regPost = true -> forall n, In n names -> name <> "post-" +:+ n) ->
      Obj.get name (CoTasks.tasks (defineTasks names regPre regPost self)) = Some arr)
  /\ (truthy regPre = true ->
      Obj.get ("pre-" +:+ name) (CoTasks.tasks (defineTasks names regPre regPost self))
      = Some [])
  /\ (truthy regPost = true ->
      Obj.get ("post-" +:+ name) (CoTasks.tasks (defineTasks names regPre regPost self))
      = Some []).
Proof.
  intros Hin. rewrite defineTasks_tasks. split; [|split].
  - intros arr Hg Hpre Hpost. now apply define_loop_keeps.
  - intros Hpre. now apply define_loop_pre.
  - intros Hpost. now apply define_loop_post.
Qed.

End RegistryClaims.

(** * Worked instances *)

Section Instances.
Import Demo.
Local Open Scope Z_scope.

Example pipeline_setup :
  register_all [("pre-a", incr 1); ("a", incr 2); ("a", incr 3); ("b", incr 4);
                ("post-b", incr 5)]
    (defineTasks ["a"; "b"] (VBool true) (VBool true) create) = Ok pipeline.
Proof. vm_compute. reflexivity. Qed.

Example lint_registers :
  exists self,
    registerTask "lint" (incr 1) create = Ok self
    /\ Obj.get "lint" (CoTasks.tasks self) = Some [incr 1]
    /\ run invoke self (VStr "unknown-task") (VObj []) (payload 1) VUndefined []
       = (Rejected (UnknownTask "unknown-task"), []).
Proof.
  eexists. split; [apply registerTask_fresh; reflexivity|].
  split; vm_compute; reflexivity.
Qed.

Example pipe_chain :
  exists self,
    register_all [("transform", incr 1); ("transform", incr 2)] create = Ok self
    /\ pipe invoke self (VStr "transform") (VObj []) (payload 1) VUndefined []
       = (Resolved (payload 3), [1; 2]%nat).
Proof. eexists. split; vm_compute; reflexivity. Qed.

Lemma run_build_report_witness :
  exists self,
    register_all [("pre-build", const 1 (VNum 11)); ("build", const 2 (VNum 22));
                  ("post-build", const 3 (VNum 33))]
      (defineTasks ["build"] (VBool true) (VBool true) create) = Ok self
    /\ run invoke self (VStr "build") (VObj []) (payload 1) VUndefined []
       = (Resolved [ {| task := "pre-build"; results := [VNum 11] |};
                     {| task := "build"; results := [VNum 22] |};
                     {| task := "post-build"; results := [VNum 33] |} ], [1; 2; 3]%nat).
Proof.
  apply (run_build_report invoke (const 1 (VNum 11)) (const 2 (VNum 22)) (const 3 (VNum 33))
           (VObj []) (payload 1) VUndefined (VNum 11) (VNum 22) (VNum 33)
           [] [1%nat] [1; 2]%nat [1; 2; 3]%nat); reflexivity.
Defined.

Lemma run_without_tasks_witness :
  truthy VUndefined = false
  /\ CoTasks.allowedTasks (@create handler) = None
  /\ run invoke create VUndefined (VObj []) (payload 1) VUndefined []
     = (Rejected NotIterable, []).
Proof.
  split; [reflexivity|]. split; [reflexivity|].
  apply (run_without_tasks invoke create VUndefined (VObj []) (payload 1) VUndefined []);
    reflexivity.
Defined.

Lemma pipe_invalid_value_witness :
  pipe invoke broken (VArr [VStr "a"; VStr "b"]) (VObj []) (payload 1) VUndefined []
  = (Rejected InvalidPipeValue, [1; 2]%nat)
  /\ pipe invoke pipeline (VArr [VStr "a"; VStr "b"]) (VObj []) (payload 1) VUndefined []
     = (Resolved (payload 6), [1; 2; 3; 4; 5]%nat).
Proof.
  split.
  - assert (Hargs : pipe_args broken (VArr [VStr "a"; VStr "b"]) (VObj []) (payload 1)
                      VUndefined
                    = (VArr [VStr "a"; VStr "b"], VObj [], payload 1, VUndefined))
      by reflexivity.
    destruct (pipe_invalid_value invoke broken _ _ _ _ _ _ _ _ [] Hargs) as [H _].
    apply (H [] (VStr "a") [VStr "b"] ["pre-a"] "a" ["post-a"]
             (payload 1) [] (payload 1) [] VNull [1; 2]%nat);
      try reflexivity; vm_compute; discriminate.
  - assert (Hargs : pipe_args pipeline (VArr [VStr "a"; VStr "b"]) (VObj []) (payload 1)
                      VUndefined
                    = (VArr [VStr "a"; VStr "b"], VObj [], payload 1, VUndefined))
      by reflexivity.
    destruct (pipe_invalid_value invoke pipeline _ _ _ _ _ _ _ _ [] Hargs) as (_ & _ & H).
    rewrite H.
    + vm_compute. reflexivity.
    + repeat constructor; vm_compute; discriminate.
    + vm_compute. repeat split; first [left; reflexivity | right; reflexivity].
Defined.

Lemma unknown_task_exactly_witness :
  run invoke pipeline (VArr [VStr "a"; VStr "zzz"; VStr "b"]) (VObj []) (payload 1) VUndefined []
  = (Rejected (UnknownTask "zzz"), [1; 2; 3]%nat).
Proof.
  destruct (unknown_task_exactly invoke pipeline "zzz") as [H _].
  apply H; [repeat constructor|].
  exists [VStr "a"], (VStr "zzz"), [VStr "b"],
    [ {| task := "pre-a"; results := [payload 2] |};
      {| task := "a"; results := [payload 2; payload 2] |} ].
  repeat split; vm_compute; reflexivity.
Defined.


Lemma pipe_without_tasks_witness :
  pipe invoke create (VObj []) (payload 1) VUndefined VUndefined []
  = (Thrown NoTasksSpecified, []).
Proof.
  apply (pipe_without_tasks invoke create (VObj []) (payload 1) VUndefined VUndefined []);
    [reflexivity | vm_compute; discriminate | reflexivity].
Defined.

Lemma pipe_rebinds_arguments_witness :
  pipe_args observer (VArr [VStr "t"]) (payload 1) (VNum 500) VUndefined
  = (VArr [VStr "t"], VNull, payload 1, VUndefined)
  /\ pipe invoke observer (VArr [VStr "t"]) (payload 1) (VNum 500) VUndefined []
     = (Resolved (VArr [VNull; payload 1]), [1%nat]).
Proof.
  destruct (pipe_rebinds_arguments invoke observer [VStr "t"] (payload 1) (VNum 500) VUndefined)
    as (Hargs & Hpipe & _); [left; reflexivity|].
  split; [exact Hargs|]. rewrite Hpipe. vm_compute. reflexivity.
Defined.

Lemma registerTask_allow_list_witness :
  registerTask "c" (incr 9) pipeline
  = Throw (TaskNotAllowed "c" ["pre-a"; "a"; "post-a"; "pre-b"; "b"; "post-b"])
  /\ exists self',
       registerTask "a" (incr 9) pipeline = Ok self'
       /\ Obj.get "a" (CoTasks.tasks self') = Some [incr 2; incr 3; incr 9].
Proof.
  destruct (registerTask_allow_list pipeline "c" (incr 9)) as [H1 _].
  destruct (registerTask_allow_list pipeline "a" (incr 9)) as [_ H2].
  split.
  - apply (H1 ["a"; "b"]); reflexivity.
  - destruct (H2 [incr 2; incr 3]) as (self' & Hr & Hg & _); [reflexivity|].
    exists self'. split; [exact Hr | exact Hg].
Defined.

Lemma registerTask_phase_name_witness :
  exists self',
    registerTask "pre-a" (incr 9) pipeline = Ok self'
    /\ Obj.get "pre-a" (CoTasks.tasks self') = Some [incr 1; incr 9].
Proof.
  destruct (registerTask_phase_name pipeline ["a"; "b"] "a" "pre-a" (incr 9))
    as [H _]; [reflexivity | left; reflexivity |].
  apply H. vm_compute. discriminate.
Defined.

Lemma defineTasks_lists_witness :
  Obj.get "a" (CoTasks.tasks (defineTasks ["a"; "b"] (VBool true) (VBool true) by_hand))
  = Some [incr 1]
  /\ Obj.get "pre-a" (CoTasks.tasks (defineTasks ["a"; "b"] (VBool true) (VBool true) by_hand))
     = Some [].
Proof.
  destruct (defineTasks_lists ["a"; "b"] (VBool true) (VBool true) by_hand "a")
    as (Hmain & Hpre & _); [left; reflexivity|].
  split.
  - apply Hmain; [reflexivity | |];
      intros _ n [<- | [<- | []]]; vm_compute; discriminate.
  - apply Hpre. reflexivity.
Defined.

(** C3 (as first stated, refuted): with the allow-list [['build']] in
    force and no list under [pre-build], registering a handler under
    [pre-build] fails with the error of a name that is not allowed. *)
Lemma phase_name_not_exempt :
  let self := defineTasks ["build"] VUndefined VUndefined (@create handler) in
  CoTasks.allowedTasks self = Some ["build"]
  /\ Obj.get "pre-build" (CoTasks.tasks self) = None
  /\ registerTask "pre-build" (incr 1) self = Throw (TaskNotAllowed "pre-build" ["build"])
  /\ message (TaskNotAllowed "pre-build" ["build"])
     = Some ("Task name pre-build not defined!" +:+ String "010" "Allowed tasks are: build").
Proof. vm_compute. repeat split; reflexivity. Qed.

(** C10 (as first stated, refuted): [pre-build] is a listed name whose
    main list held a handler before [defineTasks(['build', 'pre-build'],
    true)]; the call leaves it empty. *)
Lemma main_list_emptied :
  In "pre-build" ["build"; "pre-build"]
  /\ Obj.get "pre-build" (CoTasks.tasks only_pre_build) = Some [incr 1]
  /\ Obj.get "pre-build"
       (CoTasks.tasks (defineTasks ["build"; "pre-build"] (VBool true) VUndefined only_pre_build))
     = Some []
  /\ Obj.get "pre-build"
       (CoTasks.tasks (defineTasks ["build"; "pre-build"] (VBool true) VUndefined only_pre_build))
     <> Obj.get "pre-build" (CoTasks.tasks only_pre_build).
Proof. vm_compute. repeat split; auto; discriminate. Qed.

End Instances.

(** * Further properties of the registry *)

Section RegistryMore.
Context {handler : Type}.
Implicit Types (self : CoTasks.t handler) (fn : handler) (name k n : string).
Implicit Types (tasks : Obj.t (list handler)) (st : Obj.t (list handler) * list string).
Implicit Types (names allowed : list string) (regs : list (string * handler)).

Lemma get_set_known {V : Type} k k' (v : V) (o : Obj.t V) :
  Obj.get k (Obj.set k' v o) <> None <-> k = k' \/ Obj.get k o <> None.
Proof.
  rewrite get_set. destruct (String.eqb k' k) eqn:E.
  - apply String.eqb_eq in E. subst. split; [auto | discriminate].
  - apply String.eqb_neq in E. split; [auto | intros [?|?]; congruence].
Qed.

Lemma set_same {V : Type} k (v : V) (o : Obj.t V) :
  Obj.get k o = Some v -> Obj.set k v o = o.
Proof.
  induction o as [|[k' v'] o IH]; simpl; [discriminate|].
  destruct (String.eqb k k') eqn:E.
  - intros H. inversion H. reflexivity.
  - intros H. now rewrite IH.
Qed.

Lemma handlers_for_list_at self k : handlers_for self k = list_at (CoTasks.tasks self) k.
Proof. reflexivity. Qed.

(** *** The allow-list that [defineTasks] leaves *)

Lemma define_loop_allowed pre post names st :
  snd (fold_left (define_task pre post) names st) = snd st ++ names.
Proof.
  revert st. induction names as [|n names IH]; intros [tasks allowed]; simpl.
  - now rewrite app_nil_r.
  - rewrite IH. unfold define_task. simpl. now rewrite <- app_assoc.
Qed.

Lemma defineTasks_allowedTasks names pre post self :
  CoTasks.allowedTasks (defineTasks names pre post self) = Some names.
Proof.
  unfold defineTasks.
  pose proof (define_loop_allowed pre post names (CoTasks.tasks self, [])) as H.
  destruct (fold_left _ _ _) as [tasks' allowed]. simpl in *. now subst.
Qed.

(** X1: [defineTasks(names, ...)] leaves [names], in the order given, as
    the allow-list, whatever allow-list there was before: a second call
    replaces the list of the first. *)
Theorem defineTasks_allow_list names regPre regPost self :
  CoTasks.allowedTasks (defineTasks names regPre regPost self) = Some names
  /\ forall names' regPre' regPost',
       CoTasks.allowedTasks
         (defineTasks names' regPre' regPost' (defineTasks names regPre regPost self))
       = Some names'.
Proof. split; [|intros]; apply defineTasks_allowedTasks. Qed.

(** *** The names that have a list after [defineTasks] *)

Lemma define_task_known pre post tasks allowed n k :
  Obj.get k (fst (define_task pre post (tasks, allowed) n)) <> None
  <-> Obj.get k tasks <> None
      \/ k = n
      \/ (truthy pre = true /\ k = "pre-" +:+ n)
      \/ (truthy post = true /\ k = "post-" +:+ n).
Proof.
  unfold define_task. simpl.
  set (t1 := if truthy pre then Obj.set ("pre-" +:+ n) [] tasks else tasks).
  assert (H1 : Obj.get k t1 <> None
               <-> Obj.get k tasks <> None \/ (truthy pre = true /\ k = "pre-" +:+ n)).
  { subst t1. destruct (truthy pre).
    - rewrite get_set_known. tauto.
    - split; [auto | intros [?|[? _]]; [auto | discriminate]]. }
  set (t2 := if Obj.has n t1 then t1 else Obj.set n [] t1).
  assert (H2 : Obj.get k t2 <> None <-> Obj.get k t1 <> None \/ k = n).
  { subst t2. unfold Obj.has. destruct (Obj.get n t1) eqn:E.
    - split; [auto | intros [? | ->]; [auto | congruence]].
    - rewrite get_set_known. tauto. }
  destruct (truthy post).
  - rewrite get_set_known, H2, H1. tauto.
  - rewrite H2, H1. split; [tauto|]. intros [?|[?|[?|[? _]]]]; try tauto. discriminate.
Qed.

Lemma define_loop_known pre post names st k :
  Obj.get k (fst (fold_left (define_task pre post) names st)) <> None
  <-> Obj.get k (fst st) <> None \/ In k names \/ reset_by names pre post k.
Proof.
  revert st. induction names as [|n names IH]; intros [tasks allowed].
  - simpl. split; [auto|].
    intros [H|[H|H]]; [exact H | destruct H | destruct H as (m & Hm & _)].
    destruct Hm.
  - cbn [fold_left]. rewrite IH, define_task_known. unfold reset_by. simpl. split.
    + intros [[H | [-> | [[Hp ->] | [Hp ->]]]] | [H | (m & Hm & H)]]; eauto 10.
    + intros [H | [[-> | H] | (m & [-> | Hm] & [[Hp ->] | [Hp ->]])]]; eauto 10.
Qed.

(** X2: after [defineTasks(names, regPre, regPost)] with ordinary names
    (none a member of [Object.prototype]) the names that have a handler
    list are exactly the names that had one, the names listed, and the
    pre- and post- names of the listed names for which the flag is set.
    No name loses its list. *)
Theorem defineTasks_known names regPre regPost self k :
  Forall Plain.ordinary names ->
  known (defineTasks names regPre regPost self) k
  <-> known self k \/ In k names \/ reset_by names regPre regPost k.
Proof. intros _. unfold known. rewrite defineTasks_tasks. apply define_loop_known. Qed.

(** *** The lists after [defineTasks] *)

Lemma list_at_set k k' arr tasks :
  list_at (Obj.set k' arr tasks) k = if String.eqb k' k then arr else list_at tasks k.
Proof. unfold list_at. rewrite get_set. now destruct (String.eqb k' k). Qed.

Lemma define_task_list_at pre post tasks allowed n k :
  ~ (truthy pre = true /\ k = "pre-" +:+ n) ->
  ~ (truthy post = true /\ k = "post-" +:+ n) ->
  list_at (fst (define_task pre post (tasks, allowed) n)) k = list_at tasks k.
Proof.
  intros Hpre Hpost. unfold define_task. simpl.
  set (t1 := if truthy pre then Obj.set ("pre-" +:+ n) [] tasks else tasks).
  assert (H1 : list_at t1 k = list_at tasks k).
  { subst t1. destruct (truthy pre); [|reflexivity].
    rewrite list_at_set. destruct (String.eqb _ k) eqn:E; [|reflexivity].
    apply String.eqb_eq in E. exfalso. apply Hpre. auto. }
  set (t2 := if Obj.has n t1 then t1 else Obj.set n [] t1).
  assert (H2 : list_at t2 k = list_at t1 k).
  { subst t2. unfold Obj.has. destruct (Obj.get n t1) eqn:E; [reflexivity|].
    rewrite list_at_set. destruct (String.eqb n k) eqn:E'; [|reflexivity].
    apply String.eqb_eq in E'. subst. unfold list_at. now rewrite E. }
  destruct (truthy post); [|congruence].
  rewrite list_at_set. destruct (String.eqb _ k) eqn:E; [|congruence].
  apply String.eqb_eq in E. exfalso. apply Hpost. auto.
Qed.

Lemma define_loop_reset pre post names st k :
  reset_by names pre post k ->
  Obj.get k (fst (fold_left (define_task pre post) names st)) = Some [].
Proof.
  intros (n & Hin & [[Hp ->] | [Hp ->]]).
  - now apply define_loop_pre.
  - now apply define_loop_post.
Qed.

Lemma define_loop_list_at pre post names st k :
  ~ reset_by names pre post k ->
  list_at (fst (fold_left (define_task pre post) names st)) k = list_at (fst st) k.
Proof.
  revert st. induction names as [|n names IH]; intros [tasks allowed] Hn; [reflexivity|].
  cbn [fold_left]. rewrite IH.
  - apply define_task_list_at; intros [Hp ->]; apply Hn; exists n; simpl; auto.
  - intros (m & Hm & H). apply Hn. exists m. simpl. auto.
Qed.

(** X3: [defineTasks] registers no handler and removes none but those
    of the phase lists it resets: afterwards the list of a pre- or post-
    name of a listed name whose flag is set is empty, and every other
    name has the handlers it had. *)
Theorem defineTasks_handlers names regPre regPost self k :
  (reset_by names regPre regPost k ->
     handlers_for (defineTasks names regPre regPost self) k = [])
  /\ (~ reset_by names regPre regPost k ->
      handlers_for (defineTasks names regPre regPost self) k = handlers_for self k).
Proof.
  rewrite !handlers_for_list_at, defineTasks_tasks. split.
  - intros H. unfold list_at. now rewrite define_loop_reset.
  - apply define_loop_list_at.
Qed.

(** *** Calling [defineTasks] twice *)

Lemma define_task_settled pre post tasks allowed n :
  Obj.get n tasks <> None ->
  (truthy pre = true -> Obj.get ("pre-" +:+ n) tasks = Some []) ->
  (truthy post = true -> Obj.get ("post-" +:+ n) tasks = Some []) ->
  fst (define_task pre post (tasks, allowed) n) = tasks.
Proof.
  intros Hn Hpre Hpost. unfold define_task. simpl.
  assert (E1 : (if truthy pre then Obj.set ("pre-" +:+ n) [] tasks else tasks) = tasks).
  { destruct (truthy pre); [|reflexivity]. apply set_same. now apply Hpre. }
  rewrite E1. unfold Obj.has. destruct (Obj.get n tasks); [|congruence].
  destruct (truthy post); [|reflexivity]. apply set_same. now apply Hpost.
Qed.

Lemma define_loop_settled pre post names tasks allowed :
  (forall n, In n names ->
     Obj.get n tasks <> None
     /\ (truthy pre = true -> Obj.get ("pre-" +:+ n) tasks = Some [])
     /\ (truthy post = true -> Obj.get ("post-" +:+ n) tasks = Some [])) ->
  fst (fold_left (define_task pre post) names (tasks, allowed)) = tasks.
Proof.
  revert allowed. induction names as [|n names IH]; intros allowed H; [reflexivity|].
  cbn [fold_left].
  assert (E : fst (define_task pre post (tasks, allowed) n) = tasks).
  { destruct (H n) as (H1 & H2 & H3); [simpl; auto|]. now apply define_task_settled. }
  destruct (define_task pre post (tasks, allowed) n) as [tasks' allowed'].
  simpl in E. subst tasks'. apply IH. intros m Hm. apply H. simpl. auto.
Qed.

(** X4: [defineTasks] is idempotent: the same call made a second time
    changes nothing. *)
Theorem defineTasks_twice names regPre regPost self :
  defineTasks names regPre regPost (defineTasks names regPre regPost self)
  = defineTasks names regPre regPost self.
Proof.
  set (self1 := defineTasks names regPre regPost self).
  assert (Ht : CoTasks.tasks (defineTasks names regPre regPost self1) = CoTasks.tasks self1).
  { rewrite defineTasks_tasks. apply define_loop_settled. intros n Hin.
    subst self1. rewrite defineTasks_tasks. split; [|split].
    - apply define_loop_known. auto.
    - intros Hp. now apply define_loop_pre.
    - intros Hp. now apply define_loop_post. }
  pose proof (defineTasks_allowedTasks names regPre regPost self1) as Ha.
  pose proof (defineTasks_allowedTasks names regPre regPost self) as Ha1.
  fold self1 in Ha1.
  destruct (defineTasks names regPre regPost self1) as [t2 a2].
  destruct self1 as [t1 a1]. simpl in *. congruence.
Qed.

(** *** When [registerTask] throws *)

Lemma registerTask_ok name fn self :
  CoTasks.allowedTasks self = None \/ known self name ->
  exists self',
    registerTask name fn self = Ok self'
    /\ CoTasks.allowedTasks self' = CoTasks.allowedTasks self
    /\ (forall k, known self k -> known self' k).
Proof.
  unfold known. intros H.
  destruct (Obj.get name (CoTasks.tasks self)) as [arr|] eqn:Hg.
  - eexists. split; [apply (registerTask_known _ _ _ _ Hg)|]. simpl.
    split; [reflexivity|]. intros k Hk. apply get_set_known. auto.
  - destruct H as [Ha | Hk]; [|congruence].
    eexists. split; [now apply registerTask_fresh|]. simpl.
    split; [now rewrite Ha|]. intros k Hk. apply get_set_known. auto.
Qed.

Lemma registerTask_Throw name fn self e :
  registerTask name fn self = Throw e
  <-> CoTasks.allowedTasks self <> None
      /\ ~ known self name
      /\ e = TaskNotAllowed name (Obj.keys (CoTasks.tasks self)).
Proof.
  unfold known. split.
  - intros E.
    destruct (CoTasks.allowedTasks self) as [allowed|] eqn:Ha.
    + destruct (Obj.get name (CoTasks.tasks self)) as [arr|] eqn:Hg.
      * rewrite (registerTask_known _ _ _ _ Hg) in E. discriminate.
      * rewrite (registerTask_refused _ _ _ _ Ha Hg) in E. inversion E.
        repeat split; congruence.
    + destruct (registerTask_ok name fn self) as (self' & E' & _); [now left|].
      congruence.
  - intros (Ha & Hk & ->).
    destruct (CoTasks.allowedTasks self) as [allowed|] eqn:Ha'; [|congruence].
    apply (registerTask_refused _ _ _ allowed Ha').
    destruct (Obj.get name (CoTasks.tasks self)); [exfalso; apply Hk; discriminate | reflexivity].
Qed.

(** X5: for an ordinary name (not a member of [Object.prototype]),
    [registerTask] throws exactly when there is an allow-list and the name
    has no handler list; what it throws is then the error that lists
    [Object.keys(this.tasks)].  Without allow-list it does not throw. *)
Theorem registerTask_throws name fn self :
  Plain.ordinary name ->
  (forall e,
      registerTask name fn self = Throw e
      <-> CoTasks.allowedTasks self <> None
          /\ ~ known self name
          /\ e = TaskNotAllowed name (Obj.keys (CoTasks.tasks self)))
  /\ (CoTasks.allowedTasks self = None ->
      exists self', registerTask name fn self = Ok self').
Proof.
  intros _. split; [intros e; apply registerTask_Throw|].
  intros Ha. destruct (registerTask_ok name fn self) as (self' & E & _); eauto.
Qed.

(** *** A sequence of registrations *)

Lemma registered_cons name fn regs k :
  registered k ((name, fn) :: regs)
  = if String.eqb name k then fn :: registered k regs else registered k regs.
Proof. unfold registered. simpl. now destruct (String.eqb name k). Qed.

Lemma register_all_ok regs :
  forall self,
    CoTasks.allowedTasks self = None \/ Forall (fun r => known self (fst r)) regs ->
    exists self',
      register_all regs self = Ok self'
      /\ (forall k, handlers_for self' k = handlers_for self k ++ registered k regs)
      /\ CoTasks.allowedTasks self' = CoTasks.allowedTasks self
      /\ (forall k, known self k -> known self' k).
Proof.
  induction regs as [|[name fn] regs IH]; intros self H.
  - exists self. simpl. repeat split; auto. intros k. now rewrite app_nil_r.
  - destruct (registerTask_ok name fn self) as (self1 & E1 & Ha1 & Hk1).
    { destruct H as [Ha | Hf]; [now left | right]. now inversion Hf. }
    destruct (IH self1) as (self' & E & Hh & Ha & Hk).
    { destruct H as [Ha | Hf]; [left; congruence | right].
      inversion Hf; subst. eapply List.Forall_impl; [|eassumption]. simpl. auto. }
    exists self'. simpl. rewrite E1. simpl. split; [exact E|].
    split; [|split; [congruence | auto]].
    intros k. rewrite Hh, registered_cons.
    destruct (registerTask_handlers_for _ _ _ _ E1) as [Hn Ho].
    destruct (String.eqb name k) eqn:Ek.
    + apply String.eqb_eq in Ek. subst k. now rewrite Hn, <- app_assoc.
    + apply String.eqb_neq in Ek. rewrite Ho; congruence.
Qed.

(** X6: registrations made one after the other under ordinary names
    (none a member of [Object.prototype]), on an instance without
    allow-list or for names that all have a list, all succeed; each name
    then has the handlers it had followed by the handlers registered
    under it, in the order of the calls, and the allow-list is as it
    was. *)
Theorem register_all_appends regs self :
  Forall (fun r => Plain.ordinary (fst r)) regs ->
  CoTasks.allowedTasks self = None \/ Forall (fun r => known self (fst r)) regs ->
  exists self',
    register_all regs self = Ok self'
    /\ (forall k, handlers_for self' k = handlers_for self k ++ registered k regs)
    /\ CoTasks.allowedTasks self' = CoTasks.allowedTasks self.
Proof.
  intros _ H. destruct (register_all_ok regs self H) as (self' & E & Hh & Ha & _). eauto.
Qed.

(** *** The allow-list names are known *)

Lemma registerTask_keeps_known name fn self self' :
  registerTask name fn self = Ok self' ->
  CoTasks.allowedTasks self' = CoTasks.allowedTasks self
  /\ forall k, known self k -> known self' k.
Proof.
  intros E.
  assert (H : CoTasks.allowedTasks self = None \/ known self name).
  { destruct (CoTasks.allowedTasks self) as [allowed|] eqn:Ha; [right | now left].
    unfold known. intros Hg. rewrite (registerTask_refused _ _ _ _ Ha Hg) in E.
    discriminate. }
  destruct (registerTask_ok name fn self H) as (self1 & E1 & Ha1 & Hk1).
  assert (self1 = self') by congruence. subst. auto.
Qed.

Lemma built_invariant self : built self -> allowed_known self.
Proof.
  induction 1 as [|name fn self self' Hb IH _ E|names pre post self Hb IH _].
  - intros allowed Ha. discriminate.
  - destruct (registerTask_keeps_known _ _ _ _ E) as [Ha Hk].
    intros allowed Ha'. rewrite Ha in Ha'.
    eapply List.Forall_impl; [|apply (IH _ Ha')]. auto.
  - intros allowed Ha. rewrite defineTasks_allowedTasks in Ha. inversion Ha; subst.
    apply List.Forall_forall. intros n Hn. unfold known.
    rewrite defineTasks_tasks. apply define_loop_known. auto.
Qed.

(** X7: on every instance built from a new one by [registerTask] and
    [defineTasks] calls with ordinary names (none a member of
    [Object.prototype]), each name of the allow-list has a handler
    list. *)
Theorem built_allowed_known self :
  built self ->
  forall allowed,
    CoTasks.allowedTasks self = Some allowed ->
    forall n, In n allowed -> known self n.
Proof.
  intros Hb allowed Ha n Hn.
  pose proof (built_invariant self Hb allowed Ha) as H.
  now apply (proj1 (List.Forall_forall _ _) H).
Qed.

End RegistryMore.

(** * Further properties of the executors *)

Section ExecutorMore.
Context {handler world : Type}.
Variable invoke : handler -> value -> value -> value -> world -> reply * world.
Implicit Types (self : CoTasks.t handler) (w : world) (e : error).
Implicit Types (ctx args timeout task pipeArg v : value) (res report : list entry).
Implicit Types (arr hs : list handler) (items : list value) (names allowed : list string).

Local Notation "x <- m ;; k" := (bind m (fun x => k))
  (at level 100, m at next level, right associativity).

(** *** The ways a call can fail *)


Lemma run_phase_rejected self p ctx args timeout res w e w' :
  run_phase invoke self p ctx args timeout res w = (Rejected e, w') -> handler_error e.
Proof.
  intros E. pose proof (run_phase_outcome invoke self p ctx args timeout res w) as H.
  now rewrite E in H.
Qed.


Lemma run_task_rejected self ctx args timeout task res w e w' :
  run_task invoke self ctx args timeout task res w = (Rejected e, w') ->
  (exists t, e = UnknownTask t) \/ handler_error e.
Proof.
  unfold run_task. destruct (Obj.get _ _).
  - intros E. right.
    apply bind_rejected_inv in E as [E | (r1 & w1 & _ & E)];
      [now apply run_phase_rejected in E|].
    apply bind_rejected_inv in E as [E | (r2 & w2 & _ & E)];
      now apply run_phase_rejected in E.
  - unfold throw. intros E. inversion E. eauto.
Qed.




(** A loop fails the way one of its turns fails. *)
Lemma for_of_rejected {A : Type} (body : value -> A -> M A) (P : error -> Prop) :
  (forall x acc w e w', body x acc w = (Rejected e, w') -> P e) ->
  forall items acc w e w', for_of items body acc w = (Rejected e, w') -> P e.
Proof.
  intros Hbody items. induction items as [|x items IH]; intros acc w e w' E; simpl in E.
  - discriminate.
  - apply bind_rejected_inv in E as [E | (a & w1 & _ & E)]; eauto.
Qed.



(** [run] either has nothing to loop over, or is its loop. *)
Lemma run_cases self tasks ctx args timeout w :
  (((truthy tasks = false /\ CoTasks.allowedTasks self = None)
    \/ (truthy tasks = true /\ iterate tasks = None))
   /\ run invoke self tasks ctx args timeout w = (Rejected NotIterable, w))
  \/ (~ ((truthy tasks = false /\ CoTasks.allowedTasks self = None)
         \/ (truthy tasks = true /\ iterate tasks = None))
      /\ exists items,
           run invoke self tasks ctx args timeout w
           = for_of items (run_task invoke self ctx args timeout) [] w).
Proof.
  unfold run.
  destruct (CoTasks.allowedTasks self) as [allowed|] eqn:Ha;
    destruct tasks as [| |[|]|n| |s|l|f|shown l]; cbn -[for_of];
    try destruct (n =? 0)%Z eqn:En; try destruct (String.eqb s "") eqn:Es;
    cbn -[for_of];
    first [ left; split;
            [ first [ left; split; reflexivity
                    | right; split; reflexivity ]
            | reflexivity ]
          | right; split;
            [ intros [[H1 H2] | (H1 & H2)]; congruence
            | eexists; reflexivity ] ].
Qed.

(** X9: [run] is rejected with the [TypeError] of the loop exactly when
    its [tasks] argument is falsy and there is no allow-list, or is
    truthy and not iterable (a number, [true], a plain object; a string,
    an array, a [Set] or any other iterable is looped over); no handler
    has then been invoked. *)
Theorem run_not_iterable self tasks ctx args timeout w w' :
  run invoke self tasks ctx args timeout w = (Rejected NotIterable, w')
  <-> w' = w
      /\ ((truthy tasks = false /\ CoTasks.allowedTasks self = None)
          \/ (truthy tasks = true /\ iterate tasks = None)).
Proof.
  destruct (run_cases self tasks ctx args timeout w) as [[Hbad E] | [Hok [items E]]];
    rewrite E.
  - split; [intros H; inversion H; auto | intros [-> _]; reflexivity].
  - split; [|tauto]. intros H. exfalso.
    apply (for_of_rejected _ (fun e => e <> NotIterable)) in H; [congruence|].
    intros x acc w0 e0 w0' E0. apply run_task_rejected in E0 as [[t ->] | H0];
      [discriminate | intros ->; exact H0].
Qed.



(** *** The value a [pipe] call resolves to *)






(** *** The entries of a report and their results *)






(** *** Splitting a request *)

Lemma run_phase_acc self p ctx args timeout res w :
  run_phase invoke self p ctx args timeout res w
  = (r <- run_phase invoke self p ctx args timeout [] ;; ret (res ++ r)) w.
Proof.
  etransitivity; [apply run_phase_eq|].
  etransitivity; [|symmetry; apply bind_ext_l; intros; apply run_phase_eq].
  rewrite bind_assoc. apply bind_ext. intros rs w1.
  destruct (handlers_for self p); unfold bind, ret; simpl; [now rewrite app_nil_r | reflexivity].
Qed.

(** A step whose report so far is only ever added to. *)
Lemma acc_bind (m1 m2 : list entry -> M (list entry)) :
  (forall res w, m1 res w = (r <- m1 [] ;; ret (res ++ r)) w) ->
  (forall res w, m2 res w = (r <- m2 [] ;; ret (res ++ r)) w) ->
  forall res w,
    bind (m1 res) m2 w
    = (r1 <- m1 [] ;; r2 <- m2 [] ;; ret (res ++ r1 ++ r2)) w.
Proof.
  intros H1 H2 res w.
  etransitivity; [apply bind_ext_l; intros; apply H1|].
  rewrite bind_assoc. apply bind_ext. intros r1 w1.
  unfold bind at 1, ret at 1. rewrite H2. apply bind_ext. intros r2 w2.
  now rewrite app_assoc.
Qed.

Lemma acc_bind_nil (m1 m2 : list entry -> M (list entry)) :
  (forall res w, m1 res w = (r <- m1 [] ;; ret (res ++ r)) w) ->
  (forall res w, m2 res w = (r <- m2 [] ;; ret (res ++ r)) w) ->
  forall res w,
    bind (m1 res) m2 w = (r <- bind (m1 []) m2 ;; ret (res ++ r)) w.
Proof.
  intros H1 H2 res w. rewrite (acc_bind m1 m2 H1 H2).
  etransitivity; [|symmetry; apply bind_ext_l; intros; apply (acc_bind m1 m2 H1 H2)].
  rewrite bind_assoc. apply bind_ext. intros r1 w1.
  rewrite bind_assoc. apply bind_ext. intros r2 w2. reflexivity.
Qed.

Lemma run_task_acc self ctx args timeout task res w :
  run_task invoke self ctx args timeout task res w
  = (r <- run_task invoke self ctx args timeout task [] ;; ret (res ++ r)) w.
Proof.
  unfold run_task. destruct (Obj.get _ _); [|reflexivity].
  revert res w. apply acc_bind_nil; [intros; apply run_phase_acc|].
  apply acc_bind_nil; intros; apply run_phase_acc.
Qed.

Lemma run_loop_acc self ctx args timeout items :
  forall res w,
    for_of items (run_task invoke self ctx args timeout) res w
    = (r <- for_of items (run_task invoke self ctx args timeout) [] ;; ret (res ++ r)) w.
Proof.
  induction items as [|task items IH]; intros res w.
  - unfold bind, ret. simpl. now rewrite app_nil_r.
  - cbn [for_of]. revert res w. apply acc_bind_nil; [intros; apply run_task_acc | exact IH].
Qed.

(** X13: a request for the tasks [items1] followed by [items2] is the
    request for [items1] followed, when it succeeds, by the request for
    [items2]; the report is the two reports one after the other. *)
Theorem run_splits self items1 items2 ctx args timeout w :
  run invoke self (VArr (items1 ++ items2)) ctx args timeout w
  = (r1 <- run invoke self (VArr items1) ctx args timeout ;;
     r2 <- run invoke self (VArr items2) ctx args timeout ;;
     ret (r1 ++ r2)) w.
Proof.
  rewrite run_array, for_of_app.
  apply bind_ext. intros r1 w1. apply run_loop_acc.
Qed.

(** *** Requests without handlers *)

Lemma schedule_nil self task items :
  schedule self (List.map to_string (task :: items)) = [] ->
  (handlers_for self ("pre-" +:+ to_string task) = []
   /\ handlers_for self (to_string task) = []
   /\ handlers_for self ("post-" +:+ to_string task) = [])
  /\ schedule self (List.map to_string items) = [].
Proof.
  unfold schedule. cbn [List.map flat_map phases_of]. intros H.
  apply app_eq_nil in H as [H1 H2]. split; [|exact H2].
  apply app_eq_nil in H1 as [Hpre H1].
  apply app_eq_nil in H1 as [Hmain H1].
  apply app_eq_nil in H1 as [Hpost _]. auto.
Qed.

Lemma run_loop_idle self ctx args timeout items :
  Forall (fun task => known self (to_string task)) items ->
  schedule self (List.map to_string items) = [] ->
  forall res w,
    for_of items (run_task invoke self ctx args timeout) res w = (Resolved res, w).
Proof.
  induction 1 as [|task items Hk _ IH]; intros Hs res w; [reflexivity|].
  apply schedule_nil in Hs as [(Hpre & Hmain & Hpost) Hs].
  cbn [for_of]. unfold run_task, known in *.
  destruct (Obj.get (to_string task) (CoTasks.tasks self)); [|congruence].
  rewrite bind_assoc, (bind_resolved _ _ _ _ _ (run_phase_empty _ _ _ _ _ _ _ _ Hpre)).
  rewrite bind_assoc, (bind_resolved _ _ _ _ _ (run_phase_empty _ _ _ _ _ _ _ _ Hmain)).
  rewrite (bind_resolved _ _ _ _ _ (run_phase_empty _ _ _ _ _ _ _ _ Hpost)).
  now apply IH.
Qed.

Lemma pipe_loop_idle self ctx timeout items :
  Forall (fun task => known self (to_string task)) items ->
  schedule self (List.map to_string items) = [] ->
  forall v w,
    for_of items (pipe_task invoke self ctx timeout) v w = (Resolved v, w).
Proof.
  induction 1 as [|task items Hk _ IH]; intros Hs v w; [reflexivity|].
  apply schedule_nil in Hs as [(Hpre & Hmain & Hpost) Hs].
  cbn [for_of]. unfold pipe_task, known in *.
  destruct (Obj.get (to_string task) (CoTasks.tasks self)); [|congruence].
  rewrite bind_assoc, (bind_resolved _ _ _ _ _ (pipe_phase_empty _ _ _ _ _ _ _ Hpre)).
  rewrite bind_assoc, (bind_resolved _ _ _ _ _ (pipe_phase_empty _ _ _ _ _ _ _ Hmain)).
  rewrite (bind_resolved _ _ _ _ _ (pipe_phase_empty _ _ _ _ _ _ _ Hpost)).
  now apply IH.
Qed.

(** X14: when the requested names are known and none of their phases has
    a handler, [run] resolves to the empty report and [pipe] to the pipe
    value it was given, be it falsy; nothing is invoked. *)
Theorem idle_request self items :
  Forall (fun task => known self (to_string task)) items ->
  schedule self (List.map to_string items) = [] ->
  (forall ctx args timeout w,
      run invoke self (VArr items) ctx args timeout w = (Resolved [], w))
  /\ (forall tasks ctx0 pipeArg timeout0 ctx v0 timeout w,
        pipe_args self tasks ctx0 pipeArg timeout0 = (VArr items, ctx, v0, timeout) ->
        pipe invoke self tasks ctx0 pipeArg timeout0 w = (Resolved v0, w)).
Proof.
  intros Hk Hs. split.
  - intros. rewrite run_array. now apply run_loop_idle.
  - intros tasks ctx0 pipeArg timeout0 ctx v0 timeout w Hargs.
    rewrite (pipe_unfold _ _ _ _ _ _ _ _ _ _ _ Hargs). now apply pipe_loop_idle.
Qed.

(** *** Requests for the allow-list *)

Lemma to_string_VStr names : List.map to_string (List.map VStr names) = names.
Proof. induction names as [|n names IH]; simpl; [reflexivity | now rewrite IH]. Qed.

Lemma define_loop_all_empty pre post names :
  forall (st : Obj.t (list handler) * list string),
    (forall k, list_at (fst st) k = []) ->
    forall k, list_at (fst (fold_left (define_task pre post) names st)) k = [].
Proof.
  induction names as [|n names IH]; intros [tasks allowed] H k; [apply H|].
  cbn [fold_left]. apply IH. clear k. intros k. unfold define_task. simpl.
  destruct (truthy pre), (Obj.has n _), (truthy post);
    rewrite ?list_at_set;
    repeat match goal with
           | |- context [if ?b then _ else _] => destruct b
           | |- _ => rewrite list_at_set
           end; auto.
Qed.

Lemma schedule_all_empty self names :
  (forall k, handlers_for self k = []) -> schedule self names = [].
Proof.
  intros H. induction names as [|n names IH]; [reflexivity|].
  change (schedule self (n :: names))
    with (flat_map (handlers_for self) (phases_of n) ++ schedule self names).
  rewrite IH. unfold phases_of. simpl. now rewrite !H.
Qed.

Lemma pipe_args_shifted self tasks ctx pipeArg timeout :
  typeof tasks <> "string" ->
  isArray tasks = false ->
  pipe_args self tasks ctx pipeArg timeout
  = (allowed_value (CoTasks.allowedTasks self),
     (if String.eqb (typeof ctx) "number" || is_undefined ctx then VNull else tasks),
     (if String.eqb (typeof ctx) "number" || is_undefined ctx then tasks else ctx),
     pipeArg).
Proof.
  intros Hs Ha. unfold pipe_args. apply String.eqb_neq in Hs.
  rewrite Hs, Ha, orb_true_r. now destruct (_ || _).
Qed.

(** X15: on a new instance on which only [defineTasks] was called, with
    ordinary names (none a member of [Object.prototype]) and whatever
    flags, [run()] resolves to the empty report and [pipe(v)], for a [v]
    that is neither a string nor an array, to [v]; nothing is invoked. *)
Theorem defined_only names regPre regPost :
  Forall Plain.ordinary names ->
  (forall tasks ctx args timeout w,
      truthy tasks = false ->
      run invoke (defineTasks names regPre regPost create) tasks ctx args timeout w
      = (Resolved [], w))
  /\ (forall v w,
        typeof v <> "string" ->
        isArray v = false ->
        pipe invoke (defineTasks names regPre regPost create) v VUndefined VUndefined
          VUndefined w
        = (Resolved v, w)).
Proof.
  intros _.
  set (self := defineTasks names regPre regPost create).
  assert (Ha : CoTasks.allowedTasks self = Some names) by apply defineTasks_allowedTasks.
  assert (Hk : Forall (fun task => known self (to_string task)) (List.map VStr names)).
  { apply List.Forall_forall. intros x Hx. apply List.in_map_iff in Hx as (n & <- & Hn).
    unfold known, self. rewrite defineTasks_tasks. apply define_loop_known. auto. }
  assert (Hs : schedule self (List.map to_string (List.map VStr names)) = []).
  { apply schedule_all_empty. intros k. unfold self.
    rewrite handlers_for_list_at, defineTasks_tasks. now apply define_loop_all_empty. }
  split.
  - intros tasks ctx args timeout w Ht. unfold run. rewrite Ht, Ha. simpl.
    now apply run_loop_idle.
  - intros v w Hv Harr.
    assert (Hargs : pipe_args self v VUndefined VUndefined VUndefined
                    = (VArr (List.map VStr names), VNull, v, VUndefined)).
    { rewrite pipe_args_shifted by assumption. now rewrite Ha. }
    rewrite (pipe_unfold _ _ _ _ _ _ _ _ _ _ _ Hargs). now apply pipe_loop_idle.
Qed.

(** X16: on an instance built by [registerTask] and [defineTasks] calls
    with ordinary names (none a member of [Object.prototype]) that has an
    allow-list, [run] with a falsy [tasks] argument has the
    effect and the results of the series over the schedule of the
    allow-list: no name of the list is unknown.  [pipe] with a first
    argument that is neither a string nor an array follows the chain over
    that schedule. *)
Theorem default_request self allowed :
  built self ->
  CoTasks.allowedTasks self = Some allowed ->
  (forall tasks ctx args timeout w,
      truthy tasks = false ->
      flatten_run (run invoke self tasks ctx args timeout w)
      = co_series invoke (schedule self allowed) ctx args timeout w)
  /\ (forall tasks ctx0 pipeArg timeout0 tasks' ctx v0 timeout w,
        typeof tasks <> "string" ->
        isArray tasks = false ->
        pipe_args self tasks ctx0 pipeArg timeout0 = (tasks', ctx, v0, timeout) ->
        pipe_follows invoke (schedule self allowed) ctx timeout v0 w
          (pipe invoke self tasks ctx0 pipeArg timeout0 w)).
Proof.
  intros Hb Ha.
  assert (Hk : Forall (fun task => known self (to_string task)) (List.map VStr allowed)).
  { apply List.Forall_forall. intros x Hx. apply List.in_map_iff in Hx as (n & <- & Hn).
    simpl. pose proof (built_invariant self Hb allowed Ha) as H.
    now apply (proj1 (List.Forall_forall _ _) H). }
  split.
  - intros tasks ctx args timeout w Ht. unfold run. rewrite Ht, Ha. simpl.
    rewrite (flatten_run_loop _ _ _ _ _ _ Hk), to_string_VStr. simpl. apply bind_ret_r.
  - intros tasks ctx0 pipeArg timeout0 tasks' ctx v0 timeout w Hs Harr Hargs.
    assert (Hargs' : pipe_args self tasks ctx0 pipeArg timeout0
                     = (VArr (List.map VStr allowed), ctx, v0, timeout)).
    { rewrite Hargs. rewrite pipe_args_shifted in Hargs by assumption.
      rewrite Ha in Hargs. simpl in Hargs. congruence. }
    rewrite (pipe_unfold _ _ _ _ _ _ _ _ _ _ _ Hargs').
    rewrite <- (to_string_VStr allowed) at 1. now apply pipe_follows_loop.
Qed.

(** *** The call forms of [pipe] and [run] *)

(** X17: when its first argument is neither a string nor an array,
    [pipe] takes it for the context (or, when the second argument is a
    number or missing, for the pipe value itself, with context [null]),
    the third argument for the timeout, and never looks at the fourth; a
    number in second place is lost. *)
Theorem pipe_shifted_form self tasks ctx pipeArg timeout w :
  typeof tasks <> "string" ->
  isArray tasks = false ->
  (forall timeout', pipe invoke self tasks ctx pipeArg timeout' w
                    = pipe invoke self tasks ctx pipeArg timeout w)
  /\ (typeof ctx = "number" \/ ctx = VUndefined ->
      pipe_args self tasks ctx pipeArg timeout
      = (allowed_value (CoTasks.allowedTasks self), VNull, tasks, pipeArg)
      /\ pipe invoke self tasks ctx pipeArg timeout w
         = pipe invoke self tasks VUndefined pipeArg timeout w)
  /\ (typeof ctx <> "number" -> ctx <> VUndefined ->
      pipe_args self tasks ctx pipeArg timeout
      = (allowed_value (CoTasks.allowedTasks self), tasks, ctx, pipeArg)).
Proof.
  intros Hs Harr. split; [|split].
  - intros timeout'. unfold pipe. now rewrite !pipe_args_shifted.
  - intros Hc.
    assert (E : String.eqb (typeof ctx) "number" || is_undefined ctx = true).
    { destruct Hc as [Hc | ->]; [now rewrite Hc | reflexivity]. }
    split.
    + rewrite pipe_args_shifted by assumption. now rewrite E.
    + unfold pipe. rewrite !pipe_args_shifted by assumption. now rewrite E.
  - intros Hn Hu.
    assert (E : String.eqb (typeof ctx) "number" || is_undefined ctx = false).
    { apply String.eqb_neq in Hn. rewrite Hn. now destruct ctx. }
    rewrite pipe_args_shifted by assumption. now rewrite E.
Qed.

(** X18: a task name given as a string stands for the one-element list
    of that name, in [pipe] for every string and in [run] for every string
    but the empty one: [run('')] is [run()], while [pipe('', ...)] asks for
    the task of the empty name. *)
Theorem string_argument self s ctx arg timeout w :
  (s <> "" ->
     run invoke self (VStr s) ctx arg timeout w
     = run invoke self (VArr [VStr s]) ctx arg timeout w)
  /\ run invoke self (VStr "") ctx arg timeout w
     = run invoke self VUndefined ctx arg timeout w
  /\ pipe invoke self (VStr s) ctx arg timeout w
     = pipe invoke self (VArr [VStr s]) ctx arg timeout w.
Proof.
  split; [|split].
  - intros Hs. unfold run. simpl. apply String.eqb_neq in Hs. now rewrite Hs.
  - reflexivity.
  - reflexivity.
Qed.

End ExecutorMore.

(** * Loading the tasks directory *)

Section LoaderFacts.
Context {handler : Type}.
Variable glob_sync : string -> list string.
Variable require : string -> string -> @module handler.
Implicit Types (self : CoTasks.t handler) (dir file : string) (files : list string).
Implicit Types (regs : list (string * handler)).

Lemma load_files_app dir files1 files2 self :
  load_files require dir (files1 ++ files2) self
  = match load_files require dir files1 self with
    | (self1, None) => load_files require dir files2 self1
    | (self1, Some e) => (self1, Some e)
    end.
Proof.
  revert self. induction files1 as [|file files1 IH]; intros self; simpl; [reflexivity|].
  destruct (require dir file self) as [self1 [e|]]; [reflexivity | apply IH].
Qed.

(** X19: [registerTasksDir] calls the modules in the order in which
    [glob.sync] lists the files and stops at the first one that throws:
    the instance is left as that module left it, with what the modules
    before it did, and no later file is loaded.  A directory without files
    changes nothing. *)
Theorem registerTasksDir_stops dir self :
  (forall before file after self1 self2 e,
      glob_sync dir = before ++ file :: after ->
      load_files require dir before self = (self1, None) ->
      require dir file self1 = (self2, Some e) ->
      registerTasksDir glob_sync require dir self = (self2, Some e))
  /\ (glob_sync dir = [] -> registerTasksDir glob_sync require dir self = (self, None)).
Proof.
  unfold registerTasksDir. split.
  - intros before file after self1 self2 e -> Hb Hf.
    rewrite load_files_app, Hb. simpl. now rewrite Hf.
  - intros ->. reflexivity.
Qed.

Lemma script_register_all regs :
  forall self self', register_all regs self = Ok self' -> script regs self = (self', None).
Proof.
  induction regs as [|[name fn] regs IH]; intros self self' E; simpl in *.
  - now inversion E.
  - destruct (registerTask name fn self) as [self1|e]; simpl in E; [auto | discriminate].
Qed.

Lemma registered_app k regs1 regs2 :
  registered k (regs1 ++ regs2) = registered k regs1 ++ registered k regs2.
Proof. unfold registered. now rewrite List.filter_app, List.map_app. Qed.

Lemma load_scripts (regs_of : string -> list (string * handler)) dir files :
  (forall file, In file files -> require dir file = script (regs_of file)) ->
  forall self,
    CoTasks.allowedTasks self = None ->
    exists self',
      load_files require dir files self = (self', None)
      /\ CoTasks.allowedTasks self' = None
      /\ forall k, handlers_for self' k
                   = handlers_for self k ++ registered k (flat_map regs_of files).
Proof.
  induction files as [|file files IH]; intros Hreq self Ha.
  - exists self. simpl. repeat split; auto. intros k. now rewrite app_nil_r.
  - destruct (register_all_ok (regs_of file) self) as (self1 & E1 & Hh1 & Ha1 & _);
      [now left|].
    destruct (IH (fun f Hf => Hreq f (or_intror Hf)) self1) as (self' & E & Ha' & Hh);
      [congruence|].
    exists self'. simpl. rewrite (Hreq file (or_introl eq_refl)).
    rewrite (script_register_all _ _ _ E1). split; [exact E|]. split; [exact Ha'|].
    intros k. now rewrite Hh, Hh1, registered_app, app_assoc.
Qed.

(** X20: when the instance has no allow-list and the modules of the
    directory do nothing but call [registerTask] with ordinary names (none
    a member of [Object.prototype]), [registerTasksDir] throws nothing, leaves the instance without allow-list, and gives
    each name the handlers it had followed by the handlers the files
    register under it, file after file in the order of [glob.sync] and
    call after call within a file. *)
Theorem registerTasksDir_scripts (regs_of : string -> list (string * handler)) dir self :
  (forall file, In file (glob_sync dir) -> require dir file = script (regs_of file)) ->
  Forall (fun r => Plain.ordinary (fst r)) (flat_map regs_of (glob_sync dir)) ->
  CoTasks.allowedTasks self = None ->
  exists self',
    registerTasksDir glob_sync require dir self = (self', None)
    /\ CoTasks.allowedTasks self' = None
    /\ forall k, handlers_for self' k
                 = handlers_for self k ++ registered k (flat_map regs_of (glob_sync dir)).
Proof. intros Hreq _ Ha. now apply load_scripts. Qed.

(** X21: [new CoTasks(conf)] without [conf], without [conf.tasksDir] or
    with an empty one is the empty instance, whatever [conf.debug] is;
    with a tasks directory whose modules do nothing but call
    [registerTask] with ordinary names (none a member of
    [Object.prototype]), it is the instance without allow-list in which each
    name has the handlers the files register under it, in order. *)
Theorem construct_loads (regs_of : string -> list (string * handler)) :
  construct glob_sync require None = (create, None)
  /\ (forall d, construct glob_sync require (Some {| tasksDir := None; debug := d |})
               = (create, None))
  /\ (forall d, construct glob_sync require (Some {| tasksDir := Some ""; debug := d |})
               = (create, None))
  /\ (forall dir d,
        dir <> "" ->
        (forall file, In file (glob_sync dir) -> require dir file = script (regs_of file)) ->
        Forall (fun r => Plain.ordinary (fst r)) (flat_map regs_of (glob_sync dir)) ->
        exists self,
          construct glob_sync require (Some {| tasksDir := Some dir; debug := d |})
          = (self, None)
          /\ CoTasks.allowedTasks self = None
          /\ forall k, handlers_for self k = registered k (flat_map regs_of (glob_sync dir))).
Proof.
  repeat split.
  intros dir d Hd Hreq _. simpl. apply String.eqb_neq in Hd. rewrite Hd. simpl.
  destruct (load_scripts regs_of dir (glob_sync dir) Hreq create eq_refl)
    as (self & E & Ha & Hh).
  exists self. split; [exact E|]. split; [exact Ha|]. intros k. now rewrite Hh.
Qed.

End LoaderFacts.

(** * The task table as a plain object *)

(** [this.tasks] is created as [{}]: a lookup under a name that
    [Object.prototype] has a member for finds that member when no handler
    list was stored under the name.  On every other name the engine of
    [Module Plain] and the one above are the same. *)

Section PlainFacts.
Context {handler world : Type}.
Variable invoke : handler -> value -> value -> value -> world -> reply * world.
Variable series_member : string -> value -> value -> value -> @M world (list value).
Variable pipe_member : string -> value -> value -> value -> @M world value.
Implicit Types (self : CoTasks.t handler) (name t k : string) (fn : handler).
Implicit Types (w : world) (ctx args timeout task : value).

Lemma ordinary_pre name : Plain.ordinary ("pre-" +:+ name).
Proof. reflexivity. Qed.

Lemma ordinary_post name : Plain.ordinary ("post-" +:+ name).
Proof. reflexivity. Qed.

Lemma read_ordinary {V : Type} k (o : Obj.t V) :
  Plain.ordinary k ->
  Plain.read k o = match Obj.get k o with
                   | Some v => Plain.Own v
                   | None => Plain.Undefined
                   end.
Proof. unfold Plain.ordinary, Plain.read. intros ->. reflexivity. Qed.

Lemma read_own {V : Type} k (o : Obj.t V) v :
  Obj.get k o = Some v -> Plain.read k o = Plain.Own v.
Proof. unfold Plain.read. now intros ->. Qed.

Lemma read_inherited {V : Type} k (o : Obj.t V) m :
  Plain.member_of k = Some m -> Obj.get k o = None -> Plain.read k o = Plain.Inherited m.
Proof. unfold Plain.read. now intros -> ->. Qed.

Lemma has_ordinary {V : Type} k (o : Obj.t V) :
  Plain.ordinary k -> Plain.has k o = Obj.has k o.
Proof.
  intros Hk. unfold Plain.has, Obj.has. rewrite (read_ordinary _ _ Hk).
  now destruct (Obj.get k o).
Qed.

(** The names [Object.prototype] has a member under. *)
Lemma member_of_cases k m :
  Plain.member_of k = Some m ->
  In (k, m)
    [("constructor", Plain.Method 1); ("hasOwnProperty", Plain.Method 1);
     ("isPrototypeOf", Plain.Method 1); ("propertyIsEnumerable", Plain.Method 1);
     ("toString", Plain.Method 0); ("toLocaleString", Plain.Method 0);
     ("valueOf", Plain.Method 0); ("__defineGetter__", Plain.Method 2);
     ("__defineSetter__", Plain.Method 2); ("__lookupGetter__", Plain.Method 1);
     ("__lookupSetter__", Plain.Method 1); ("__proto__", Plain.Accessor)].
Proof.
  unfold Plain.member_of. intros H.
  repeat match type of H with
         | (if String.eqb k ?c then _ else _) = _ =>
             let E := fresh "E" in
             destruct (String.eqb k c) eqn:E;
             [apply String.eqb_eq in E; subst k; inversion H; subst m;
              cbn [In]; tauto|]
         end.
  discriminate.
Qed.

(** *** Agreement on ordinary names *)

Lemma registerTask_agrees name fn self :
  Plain.ordinary name ->
  Plain.registerTask name fn self
  = match registerTask name fn self with
    | Ok self' => Plain.Returns self'
    | Throw e => Plain.Throws e
    end.
Proof.
  intros Hn. unfold Plain.registerTask, registerTask. rewrite (read_ordinary _ _ Hn).
  destruct (Obj.get name (CoTasks.tasks self)); [reflexivity|].
  now destruct (CoTasks.allowedTasks self).
Qed.

Lemma define_task_agrees regPre regPost (st : Obj.t (list handler) * list string) name :
  Plain.ordinary name ->
  Plain.define_task regPre regPost st name = define_task regPre regPost st name.
Proof.
  intros Hn. destruct st as [tasks allowed]. unfold Plain.define_task, define_task.
  now rewrite (has_ordinary _ _ Hn).
Qed.

Lemma defineTasks_agrees names regPre regPost self :
  Forall Plain.ordinary names ->
  Plain.defineTasks names regPre regPost self = defineTasks names regPre regPost self.
Proof.
  intros Hn. unfold Plain.defineTasks, defineTasks.
  generalize (CoTasks.tasks self, @nil string).
  induction Hn as [|name names Ho _ IH]; intros st; [reflexivity|].
  cbn [fold_left]. rewrite (define_task_agrees _ _ _ _ Ho). apply IH.
Qed.

Lemma run_phase_agrees self name ctx args timeout res :
  Plain.ordinary name ->
  Plain.run_phase invoke series_member self name ctx args timeout res
  = run_phase invoke self name ctx args timeout res.
Proof.
  intros Hn. unfold Plain.run_phase, run_phase. rewrite (read_ordinary _ _ Hn).
  now destruct (Obj.get name (CoTasks.tasks self)).
Qed.

Lemma run_task_agrees self ctx args timeout task res w :
  Plain.ordinary (to_string task) ->
  Plain.run_task invoke series_member self ctx args timeout task res w
  = run_task invoke self ctx args timeout task res w.
Proof.
  intros Hn. unfold Plain.run_task, run_task. rewrite (read_ordinary _ _ Hn).
  destruct (Obj.get (to_string task) (CoTasks.tasks self)); [|reflexivity].
  rewrite (run_phase_agrees _ _ _ _ _ _ (ordinary_pre _)).
  apply bind_ext. intros res1 w1.
  rewrite (run_phase_agrees _ _ _ _ _ _ Hn).
  apply bind_ext. intros res2 w2.
  now rewrite (run_phase_agrees _ _ _ _ _ _ (ordinary_post _)).
Qed.

Lemma pipe_phase_agrees self name ctx timeout v :
  Plain.ordinary name ->
  Plain.pipe_phase invoke pipe_member self name ctx timeout v
  = pipe_phase invoke self name ctx timeout v.
Proof.
  intros Hn. unfold Plain.pipe_phase, pipe_phase. rewrite (read_ordinary _ _ Hn).
  now destruct (Obj.get name (CoTasks.tasks self)).
Qed.

Lemma pipe_task_agrees self ctx timeout task v w :
  Plain.ordinary (to_string task) ->
  Plain.pipe_task invoke pipe_member self ctx timeout task v w
  = pipe_task invoke self ctx timeout task v w.
Proof.
  intros Hn. unfold Plain.pipe_task, pipe_task. rewrite (read_ordinary _ _ Hn).
  destruct (Obj.get (to_string task) (CoTasks.tasks self)); [|reflexivity].
  rewrite (pipe_phase_agrees _ _ _ _ _ (ordinary_pre _)).
  apply bind_ext. intros v1 w1.
  rewrite (pipe_phase_agrees _ _ _ _ _ Hn).
  apply bind_ext. intros v2 w2.
  now rewrite (pipe_phase_agrees _ _ _ _ _ (ordinary_post _)).
Qed.

Lemma for_of_agrees {A : Type} (body1 body2 : value -> A -> @M world A) items :
  Forall (fun x => forall acc w, body1 x acc w = body2 x acc w) items ->
  forall acc w, for_of items body1 acc w = for_of items body2 acc w.
Proof.
  induction 1 as [|x items Hx _ IH]; intros acc w; [reflexivity|].
  cbn [for_of]. etransitivity; [apply bind_ext_l; intros; apply Hx|].
  apply bind_ext. exact IH.
Qed.

(** A request for ordinary names is served alike. *)
Lemma run_agrees self items ctx args timeout w :
  Forall (fun task => Plain.ordinary (to_string task)) items ->
  Plain.run invoke series_member self (VArr items) ctx args timeout w
  = run invoke self (VArr items) ctx args timeout w.
Proof.
  intros Hn. unfold Plain.run. rewrite run_array.
  change (for_of items (Plain.run_task invoke series_member self ctx args timeout) [] w
          = for_of items (run_task invoke self ctx args timeout) [] w).
  apply for_of_agrees.
  eapply List.Forall_impl; [|exact Hn]. intros task Ht acc w'. now apply run_task_agrees.
Qed.

Lemma pipe_agrees self tasks ctx0 pipeArg timeout0 items ctx v0 timeout w :
  pipe_args self tasks ctx0 pipeArg timeout0 = (VArr items, ctx, v0, timeout) ->
  Forall (fun task => Plain.ordinary (to_string task)) items ->
  Plain.pipe invoke pipe_member self tasks ctx0 pipeArg timeout0 w
  = pipe invoke self tasks ctx0 pipeArg timeout0 w.
Proof.
  intros Hargs Hn. unfold Plain.pipe, pipe. rewrite Hargs.
  cbn [truthy negb iterate].
  apply for_of_agrees.
  eapply List.Forall_impl; [|exact Hn]. intros task Ht acc w'. now apply pipe_task_agrees.
Qed.

(** *** The inherited names *)

(** C5: a requested name that was never registered but that
    [Object.prototype] has a member under does not make the call fail:
    [this.tasks[t]] is that member, which is truthy, so that the turn of
    the loop for [t] goes on to the three phases whatever the instance
    holds; and on a new instance, for the members that have no [length]
    or a [length] of zero ([toString], [toLocaleString], [valueOf],
    [__proto__]), [run(t)] resolves to the empty report and [pipe(t)] to
    its pipe value, in the world they started in. *)
Theorem unregistered_inherited_name t m :
  Plain.member_of t = Some m ->
  (forall self ctx args timeout task res,
      to_string task = t ->
      Plain.run_task invoke series_member self ctx args timeout task res
      = bind (Plain.run_phase invoke series_member self ("pre-" +:+ t) ctx args timeout res)
          (fun res =>
             bind (Plain.run_phase invoke series_member self t ctx args timeout res)
               (fun res =>
                  Plain.run_phase invoke series_member self ("post-" +:+ t) ctx args
                    timeout res)))
  /\ (m = Plain.Method 0 \/ m = Plain.Accessor ->
      Obj.get t (CoTasks.tasks (@create handler)) = None
      /\ (forall ctx args timeout w,
             Plain.run invoke series_member create (VStr t) ctx args timeout w
             = (Resolved [], w))
      /\ (forall ctx0 pipeArg timeout0 tasks ctx v0 timeout w,
             pipe_args (@create handler) (VStr t) ctx0 pipeArg timeout0
             = (tasks, ctx, v0, timeout) ->
             Plain.pipe invoke pipe_member create (VStr t) ctx0 pipeArg timeout0 w
             = (Resolved v0, w))).
Proof.
  intros Hm. split.
  - intros self ctx args timeout task res <-. unfold Plain.run_task, Plain.read.
    rewrite Hm. now destruct (Obj.get _ _).
  - intros Hz. split; [reflexivity|].
    apply member_of_cases in Hm. cbn [In] in Hm.
    assert (Ht : t = "toString" \/ t = "toLocaleString" \/ t = "valueOf" \/ t = "__proto__").
    { destruct Hz as [-> | ->];
        repeat (destruct Hm as [Hm | Hm]; [inversion Hm; subst; tauto|]);
        destruct Hm. }
    split.
    + intros ctx args timeout w.
      destruct Ht as [-> | [-> | [-> | ->]]]; reflexivity.
    + intros ctx0 pipeArg timeout0 tasks ctx v0 timeout w Hargs.
      unfold Plain.pipe. rewrite Hargs.
      assert (Htasks : tasks = VArr [VStr t]).
      { unfold pipe_args in Hargs. cbn in Hargs.
        destruct (_ || _) in Hargs; now inversion Hargs. }
      subst tasks.
      destruct Ht as [-> | [-> | [-> | ->]]]; reflexivity.
Qed.

(** C7: [registerTask] under a name that has no handler list but that
    [Object.prototype] has a member under consults no allow-list and
    creates no list: [this.tasks[name]] is the inherited member, which is
    truthy and has no [push], and the call ends in the [TypeError] of that
    call, whether or not an allow-list is in force; it is not the error
    that lists the known names. *)
Theorem registerTask_inherited_name name m fn self :
  Plain.member_of name = Some m ->
  Obj.get name (CoTasks.tasks self) = None ->
  Plain.registerTask name fn self = Plain.TypeError
  /\ Plain.registerTask name fn self
     <> Plain.Throws (TaskNotAllowed name (Obj.keys (CoTasks.tasks self))).
Proof.
  intros Hm Hg. unfold Plain.registerTask. rewrite (read_inherited _ _ _ Hm Hg).
  split; [reflexivity | discriminate].
Qed.

End PlainFacts.

(** * More worked instances *)

Section MoreInstances.
Import Demo.
Local Open Scope Z_scope.

Lemma built_register_all (regs : list (string * handler)) :
  Forall (fun r => Plain.ordinary (fst r)) regs ->
  forall self self', built self -> register_all regs self = Ok self' -> built self'.
Proof.
  induction 1 as [|[name fn] regs Ho _ IH]; intros self self' Hb E; simpl in E.
  - now inversion E; subst.
  - destruct (registerTask name fn self) as [self1|e] eqn:E1; simpl in E; [|discriminate].
    eapply IH; [|exact E]. eapply built_register; eauto.
Qed.

Lemma pipeline_built : built pipeline.
Proof.
  eapply built_register_all; [|
    apply (built_define ["a"; "b"] (VBool true) (VBool true) _ built_create)|
    exact pipeline_setup];
    repeat constructor.
Qed.

Lemma defineTasks_known_witness :
  known (defineTasks ["a"; "b"] (VBool true) (VBool true) by_hand) "post-b".
Proof.
  apply (defineTasks_known ["a"; "b"] (VBool true) (VBool true) by_hand "post-b");
    [repeat constructor|].
  right. right. exists "b". split; [simpl; auto|]. right. split; reflexivity.
Defined.

Lemma defineTasks_handlers_witness :
  handlers_for (defineTasks ["a"] (VBool true) VUndefined by_hand) "pre-a" = []
  /\ handlers_for (defineTasks ["a"] (VBool true) VUndefined by_hand) "a" = [incr 1].
Proof.
  split.
  - apply (defineTasks_handlers ["a"] (VBool true) VUndefined by_hand "pre-a").
    exists "a". split; [simpl; auto|]. left. split; reflexivity.
  - apply (defineTasks_handlers ["a"] (VBool true) VUndefined by_hand "a").
    intros (n & Hin & [[_ H] | [H _]]); [|discriminate].
    destruct Hin as [<- | []]. discriminate.
Defined.

Lemma registerTask_throws_witness :
  registerTask "c" (incr 9) pipeline
  = Throw (TaskNotAllowed "c" ["pre-a"; "a"; "post-a"; "pre-b"; "b"; "post-b"])
  /\ exists self', registerTask "c" (incr 9) broken = Ok self'.
Proof.
  destruct (registerTask_throws "c" (incr 9) pipeline) as [H _]; [reflexivity|].
  destruct (registerTask_throws "c" (incr 9) broken) as [_ H']; [reflexivity|].
  split.
  - apply H. split; [discriminate|]. split; [|reflexivity].
    intros Hk. apply Hk. reflexivity.
  - apply H'. reflexivity.
Defined.

Lemma register_all_appends_witness :
  exists self',
    register_all [("a", incr 1); ("b", incr 2); ("a", incr 3)] create = Ok self'
    /\ handlers_for self' "a" = [incr 1; incr 3]
    /\ handlers_for self' "b" = [incr 2].
Proof.
  destruct (register_all_appends [("a", incr 1); ("b", incr 2); ("a", incr 3)] create)
    as (self' & E & Hh & _); [repeat constructor | left; reflexivity|].
  exists self'. split; [exact E|]. split; rewrite Hh; reflexivity.
Defined.

Lemma built_allowed_known_witness :
  known (defineTasks ["a"; "b"] VUndefined VUndefined (@create handler)) "b".
Proof.
  apply (built_allowed_known (defineTasks ["a"; "b"] VUndefined VUndefined create)
           (built_define ["a"; "b"] _ _ _ built_create
              ltac:(repeat constructor)) ["a"; "b"]); [reflexivity|].
  simpl. auto.
Defined.


Lemma run_not_iterable_witness :
  run invoke pipeline (VNum 5) (VObj []) (payload 1) VUndefined []
  = (Rejected NotIterable, []).
Proof.
  apply (run_not_iterable invoke pipeline (VNum 5) (VObj []) (payload 1) VUndefined [] []).
  split; [reflexivity|]. right. split; reflexivity.
Defined.




Lemma idle_request_witness :
  run invoke by_hand (VArr []) (VObj []) (payload 1) VUndefined [] = (Resolved [], [])
  /\ run invoke (defineTasks ["a"] (VBool true) (VBool true) create) (VArr [VStr "a"])
       (VObj []) (payload 1) VUndefined []
     = (Resolved [], []).
Proof.
  split.
  - destruct (idle_request invoke by_hand []) as [H _]; [constructor | reflexivity|].
    apply H.
  - destruct (idle_request invoke (defineTasks ["a"] (VBool true) (VBool true) create)
                [VStr "a"]) as [H _];
      [repeat constructor; vm_compute; discriminate | reflexivity|].
    apply H.
Defined.

Lemma defined_only_witness :
  run invoke (defineTasks ["a"; "b"] (VBool true) VUndefined create) VUndefined
    (VObj []) (payload 1) VUndefined []
  = (Resolved [], [])
  /\ pipe invoke (defineTasks ["a"; "b"] (VBool true) VUndefined create) (VBool false)
       VUndefined VUndefined VUndefined []
     = (Resolved (VBool false), []).
Proof.
  destruct (defined_only invoke ["a"; "b"] (VBool true) VUndefined) as [H1 H2];
    [repeat constructor|].
  split.
  - apply H1. reflexivity.
  - apply H2; [discriminate | reflexivity].
Defined.

Lemma default_request_witness :
  flatten_run (run invoke pipeline VUndefined (VObj []) (payload 1) VUndefined [])
  = (Resolved [payload 2; payload 2; payload 2; payload 2; payload 2], [1; 2; 3; 4; 5]%nat).
Proof.
  destruct (default_request invoke pipeline ["a"; "b"] pipeline_built eq_refl) as [H _].
  rewrite H by reflexivity. vm_compute. reflexivity.
Defined.

Lemma pipe_shifted_form_witness :
  pipe_args pipeline (payload 1) (VNum 500) VUndefined (VNum 9)
  = (VArr [VStr "a"; VStr "b"], VNull, payload 1, VUndefined)
  /\ pipe invoke pipeline (payload 1) (VNum 500) VUndefined (VNum 9) []
     = pipe invoke pipeline (payload 1) VUndefined VUndefined (VNum 9) [].
Proof.
  destruct (pipe_shifted_form invoke pipeline (payload 1) (VNum 500) VUndefined (VNum 9) [])
    as (_ & H & _); [discriminate | reflexivity|].
  apply H. left. reflexivity.
Defined.

Lemma string_argument_witness :
  run invoke pipeline (VStr "a") (VObj []) (payload 1) VUndefined []
  = run invoke pipeline (VArr [VStr "a"]) (VObj []) (payload 1) VUndefined [].
Proof.
  destruct (string_argument invoke pipeline "a" (VObj []) (payload 1) VUndefined [])
    as [H _].
  apply H. discriminate.
Defined.

Lemma registerTasksDir_stops_witness :
  exists self2,
    registerTasksDir files_of require_faulty "tasks" create
    = (self2, Some (Foreign (VStr "boom")))
    /\ handlers_for self2 "a" = [incr 1]
    /\ handlers_for self2 "b" = [incr 2].
Proof.
  destruct (registerTasksDir_stops files_of require_faulty "tasks" create) as [H _].
  eexists. split.
  - eapply (H ["a.js"] "bad.js" ["b.js"]); vm_compute; reflexivity.
  - split; reflexivity.
Defined.

Lemma registerTasksDir_scripts_witness :
  exists self',
    registerTasksDir files_of require_script "tasks" create = (self', None)
    /\ handlers_for self' "a" = [incr 1; incr 3]
    /\ handlers_for self' "b" = [incr 2].
Proof.
  destruct (registerTasksDir_scripts files_of require_script regs_of "tasks" create)
    as (self' & E & _ & Hh); [reflexivity | repeat constructor | reflexivity|].
  exists self'. split; [exact E|]. split; rewrite Hh; reflexivity.
Defined.

Lemma construct_loads_witness :
  exists self,
    construct files_of require_script (Some {| tasksDir := Some "tasks"; debug := true |})
    = (self, None)
    /\ handlers_for self "a" = [incr 1; incr 3].
Proof.
  destruct (construct_loads files_of require_script regs_of) as (_ & _ & _ & H).
  destruct (H "tasks" true) as (self & E & _ & Hh);
    [discriminate | reflexivity | repeat constructor|].
  exists self. split; [exact E|]. rewrite Hh. reflexivity.
Defined.

Lemma unregistered_inherited_name_witness :
  Plain.run invoke (fun _ _ _ _ => ret []) (@create handler) (VStr "toString") (VObj [])
    (payload 1) VUndefined []
  = (Resolved [], [])
  /\ Plain.pipe invoke (fun _ _ v _ => ret v) (@create handler) (VStr "toString") (VObj [])
       (payload 1) VUndefined []
     = (Resolved (payload 1), []).
Proof.
  destruct (unregistered_inherited_name invoke (fun _ _ _ _ => ret [])
              (fun _ _ v _ => ret v) "toString" (Plain.Method 0) eq_refl)
    as (_ & H).
  destruct (H (or_introl eq_refl)) as (_ & Hrun & Hpipe).
  split.
  - apply Hrun.
  - apply (Hpipe (VObj []) (payload 1) VUndefined (VArr [VStr "toString"]) (VObj [])
             (payload 1) VUndefined []).
    reflexivity.
Defined.

Lemma registerTask_inherited_name_witness :
  CoTasks.allowedTasks pipeline = Some ["a"; "b"]
  /\ Plain.registerTask "hasOwnProperty" (incr 9) pipeline = Plain.TypeError.
Proof.
  split; [reflexivity|].
  apply (registerTask_inherited_name "hasOwnProperty" (Plain.Method 1) (incr 9) pipeline);
    reflexivity.
Defined.

End MoreInstances.
